(** * Portfolio site: project filter, certificate carousel, OG image script

    A shallow embedding of the three pieces of logic of the repository:

    - [Carousel]: the state and the event handlers of [CertificatesSlider]
      (the React component with [nextSlide], [prevSlide], the touch and mouse
      handlers, the card [onClick] and [getCardStyle]);
    - [Filter]: the [filteredProjects] computation of [ProjectFilter];
    - [OgScript]: [scripts/generate-og.mjs], over a small model of the file
      system and of the image encoder.

    JavaScript numbers that hold pixel coordinates and indices are modelled
    as [Z]; the one place where the source divides ([total / 2]) is modelled
    in [Q].  Component state is an explicit record, and every handler is a
    function from the state of the last render to the next one. *)

From Stdlib Require Import ZArith QArith Qminmax Bool List Ascii String Lia.
From Stdlib Require Import Sorted.
From stdpp Require Import base option list gmap strings.
Import ListNotations.

Local Open Scope Z_scope.

(* ===================================================================== *)
(** ** The certificate carousel *)
(* ===================================================================== *)

Module Carousel.

(** [interface Certificate] *)
Record Certificate : Type := {
  id : Z;
  title : string;
  issuer : string;
  description : string;
  date : string;
  image : option string;
  link : option string
}.

(** The five [useState] cells of the component. *)
Record State : Type := {
  activeIndex : Z;
  touchStart : option Z;
  touchEnd : option Z;
  isDragging : bool;
  dragStartX : option Z
}.

(** [useState(0)], [useState(null)], [useState(null)], [useState(false)],
    [useState(null)]. *)
Definition initial : State :=
  {| activeIndex := 0; touchStart := None; touchEnd := None;
     isDragging := false; dragStartX := None |}.

Definition minSwipeDistance : Z := 50.

(** The [%] of JavaScript on integers: the remainder has the sign of the
    dividend, as [Z.rem]. *)
Definition js_rem (a b : Z) : Z := Z.rem a b.

(** [!x] for [x : number | null]: [null] and [0] are falsy. *)
Definition falsy (x : option Z) : bool :=
  match x with
  | None => true
  | Some v => v =? 0
  end.

Definition set_activeIndex (f : Z -> Z) (st : State) : State :=
  {| activeIndex := f (activeIndex st); touchStart := touchStart st;
     touchEnd := touchEnd st; isDragging := isDragging st;
     dragStartX := dragStartX st |}.

Section Handlers.

Variable certificates : list Certificate.

(** [certificates.length] *)
Definition total : Z := Z.of_nat (List.length certificates).

(** [setActiveIndex((prev) => (prev + 1) % certificates.length)] *)
Definition nextSlide (st : State) : State :=
  set_activeIndex (fun prev => js_rem (prev + 1) total) st.

(** [setActiveIndex((prev) =>
      (prev - 1 + certificates.length) % certificates.length)] *)
Definition prevSlide (st : State) : State :=
  set_activeIndex (fun prev => js_rem (prev - 1 + total) total) st.

Definition onTouchStart (clientX : Z) (st : State) : State :=
  {| activeIndex := activeIndex st; touchStart := Some clientX;
     touchEnd := None; isDragging := isDragging st;
     dragStartX := dragStartX st |}.

Definition onTouchMove (clientX : Z) (st : State) : State :=
  {| activeIndex := activeIndex st; touchStart := touchStart st;
     touchEnd := Some clientX; isDragging := isDragging st;
     dragStartX := dragStartX st |}.

Definition onTouchEnd (st : State) : State :=
  if falsy (touchStart st) || falsy (touchEnd st) then st
  else
    match touchStart st, touchEnd st with
    | Some s, Some e =>
        let distance := s - e in
        let isLeftSwipe := minSwipeDistance <? distance in
        let isRightSwipe := distance <? - minSwipeDistance in
        if isLeftSwipe then nextSlide st
        else if isRightSwipe then prevSlide st
        else st
    | _, _ => st
    end.

Definition onMouseDown (clientX : Z) (st : State) : State :=
  {| activeIndex := activeIndex st; touchStart := touchStart st;
     touchEnd := touchEnd st; isDragging := true;
     dragStartX := Some clientX |}.

Definition onMouseMove (clientX : Z) (st : State) : State := st.

Definition stop_drag (st : State) : State :=
  {| activeIndex := activeIndex st; touchStart := touchStart st;
     touchEnd := touchEnd st; isDragging := false; dragStartX := None |}.

Definition onMouseUp (clientX : Z) (st : State) : State :=
  match isDragging st, dragStartX st with
  | true, Some s =>
      let dragEndX := clientX in
      let distance := s - dragEndX in
      stop_drag
        (if minSwipeDistance <? distance then nextSlide st
         else if distance <? - minSwipeDistance then prevSlide st
         else st)
  | _, _ => st
  end.

Definition onMouseLeave (st : State) : State := stop_drag st.

(** The [onClick] of the card rendered at [index]:
    [if (!isDragging) setActiveIndex(index)]. *)
Definition onCardClick (index : Z) (st : State) : State :=
  if negb (isDragging st) then set_activeIndex (fun _ => index) st else st.

(** The DOM events the component listens to; the two buttons call
    [prevSlide] and [nextSlide]. *)
Inductive Event : Type :=
| TouchStart (clientX : Z)
| TouchMove (clientX : Z)
| TouchEnd
| MouseDown (clientX : Z)
| MouseMove (clientX : Z)
| MouseUp (clientX : Z)
| MouseLeave
| CardClick (index : Z)
| PrevButton
| NextButton.

Definition handle (ev : Event) (st : State) : State :=
  match ev with
  | TouchStart x => onTouchStart x st
  | TouchMove x => onTouchMove x st
  | TouchEnd => onTouchEnd st
  | MouseDown x => onMouseDown x st
  | MouseMove x => onMouseMove x st
  | MouseUp x => onMouseUp x st
  | MouseLeave => onMouseLeave st
  | CardClick i => onCardClick i st
  | PrevButton => prevSlide st
  | NextButton => nextSlide st
  end.

(** Every event is handled on the state committed by the previous one. *)
Definition run (evs : list Event) (st : State) : State :=
  fold_left (fun s ev => handle ev s) evs st.

(** The cards are rendered by [certificates.map((cert, index) => ...)]:
    a click can only carry the index of a card of the list. *)
Definition rendered (ev : Event) : Prop :=
  match ev with
  | CardClick i => 0 <= i < total
  | _ => True
  end.

(** The invariant of the component: [activeIndex] is an index of the list. *)
Definition in_range (st : State) : Prop := 0 <= activeIndex st < total.

(** *** [getCardStyle] *)

Definition Qltb (a b : Q) : bool := negb (Qle_bool b a).

(** [let diff = index - activeIndex;
     if (diff > total / 2) diff -= total;
     if (diff < -total / 2) diff += total;] *)
Definition normalizedDiff (active index : Z) : Z :=
  let diff := index - active in
  let diff := if Qltb (inject_Z total / 2) (inject_Z diff)
              then diff - total else diff in
  let diff := if Qltb (inject_Z diff) (- inject_Z total / 2)
              then diff + total else diff in
  diff.

Record CardStyle : Type := {
  xOffset : Z;
  zOffset : Z;
  rotateY : Z;
  zIndex : Z;
  opacity : Q;
  scale : Q;
  isVisible : bool
}.

Definition getCardStyle (st : State) (index : Z) : CardStyle :=
  let diff := normalizedDiff (activeIndex st) index in
  let isActive := diff =? 0 in
  let visible := Z.abs diff <=? 2 in
  let op := Qmax (1 - inject_Z (Z.abs diff) * (3 # 10)) 0 in
  {| xOffset := diff * 120;
     zOffset := - Z.abs diff * 100;
     rotateY := if 0 <? diff then -45 else if diff <? 0 then 45 else 0;
     zIndex := 100 - Z.abs diff;
     opacity := if visible then op else 0;
     scale := if isActive then 1 else 8 # 10;
     isVisible := visible |}.

(** [const activeCert = certificates[activeIndex]]: [undefined] when the
    index is not one of the list. *)
Definition activeCert (st : State) : option Certificate :=
  if activeIndex st <? 0 then None
  else nth_error certificates (Z.to_nat (activeIndex st)).

End Handlers.

End Carousel.

(* ===================================================================== *)
(** ** The project filter *)
(* ===================================================================== *)

Module Filter.

(** [interface Project]; the two copies of the component differ only by the
    optional [heroImage], which the filter never reads. *)
Record ProjectData : Type := {
  title : string;
  description : string;
  tags : list string;
  date : Z;
  heroImage : option string
}.

Record Project : Type := {
  slug : string;
  data : ProjectData
}.

(** [React.useState] cells of [ProjectFilter]. *)
Record State : Type := {
  search : string;
  selectedTag : option string
}.

Definition initial : State :=
  {| search := EmptyString; selectedTag := None |}.

(** [String.prototype.toLowerCase], on the characters of [ascii]: the
    letters [A]..[Z] are mapped to [a]..[z], every other character is kept.
    This is the builtin on ASCII text; on other text the builtin folds
    further letters, and not always one character at a time. *)
Definition lower_char (c : ascii) : ascii :=
  let n := nat_of_ascii c in
  if (65 <=? n)%nat && (n <=? 90)%nat then ascii_of_nat (n + 32) else c.

Fixpoint toLowerCase (s : string) : string :=
  match s with
  | EmptyString => EmptyString
  | String c s' => String (lower_char c) (toLowerCase s')
  end.

(** [s.startsWith(q)] *)
Fixpoint startsWith (s q : string) : bool :=
  match q, s with
  | EmptyString, _ => true
  | String _ _, EmptyString => false
  | String b q', String a s' =>
      if Ascii.eqb a b then startsWith s' q' else false
  end.

(** [s.includes(q)]: [q] occurs in [s] at some position. *)
Fixpoint includes (s q : string) : bool :=
  if startsWith s q then true
  else
    match s with
    | EmptyString => false
    | String _ s' => includes s' q
    end.

(** [tags.includes(t)] on an array of strings. *)
Definition array_includes (l : list string) (t : string) : bool :=
  existsb (String.eqb t) l.

(** The truth value of a [string | null]: [null] and the empty string are
    falsy. *)
Definition truthy (t : option string) : bool :=
  match t with
  | Some (String _ _) => true
  | _ => false
  end.

(** The callback handed to [projects.filter]. *)
Definition keeps (st : State) (project : Project) : bool :=
  let matchesSearch :=
    includes (toLowerCase (title (data project))) (toLowerCase (search st))
    || includes (toLowerCase (description (data project)))
                (toLowerCase (search st)) in
  let matchesTag :=
    if truthy (selectedTag st) then
      match selectedTag st with
      | Some t => array_includes (tags (data project)) t
      | None => true
      end
    else true in
  matchesSearch && matchesTag.

Definition filteredProjects (projects : list Project) (st : State)
  : list Project :=
  List.filter (keeps st) projects.

(** The [Set] built by [allTags]; one button is drawn per element (the
    order of the buttons, given by [sort], is not modelled). *)
Definition allTags (projects : list Project) : gset string :=
  list_to_set (concat (map (fun p => tags (data p)) projects)).

(** [onChange] of the search box and [onClick] of a tag button:
    [setSelectedTag(tag === selectedTag ? null : tag)]. *)
Definition onSearch (text : string) (st : State) : State :=
  {| search := text; selectedTag := selectedTag st |}.

Definition onTagClick (tag : string) (st : State) : State :=
  {| search := search st;
     selectedTag := if decide (Some tag = selectedTag st) then None
                    else Some tag |}.

(** The "Todos" button is highlighted, and the filter is documented as
    unset, exactly when [selectedTag === null]. *)
Definition noTagSelected (st : State) : bool :=
  match selectedTag st with None => true | Some _ => false end.

(** *** The contract, in the words of the specification *)

(** [w] and [q] are the same text up to the case of their letters. *)
Definition same_ignoring_case (w q : string) : Prop :=
  toLowerCase w = toLowerCase q.

(** [s] contains [q] as a case-insensitive substring: some stretch [w] of
    [s] is [q] up to case. *)
Definition contains_ci (s q : string) : Prop :=
  exists pre w suf : string,
    s = (pre ++ w ++ suf)%string /\ same_ignoring_case w q.

(** The project matches the search text and, when a tag is set, carries it. *)
Definition Matches (q : string) (t : option string) (p : Project) : Prop :=
  (contains_ci (title (data p)) q \/ contains_ci (description (data p)) q)
  /\ (forall tag, t = Some tag -> In tag (tags (data p))).

(** [r] is the ordered sub-sequence of [l] made of exactly the elements
    that satisfy [M]. *)
Inductive Selects {A : Type} (M : A -> Prop) : list A -> list A -> Prop :=
| Selects_nil : Selects M [] []
| Selects_keep x l r : M x -> Selects M l r -> Selects M (x :: l) (x :: r)
| Selects_drop x l r : ~ M x -> Selects M l r -> Selects M (x :: l) r.

(** *** The callback, whatever the builtin does *)

(** The callback handed to [projects.filter], with [lower] standing for
    [String.prototype.toLowerCase]. *)
Definition keeps_by (lower : string -> string) (st : State)
    (project : Project) : bool :=
  let matchesSearch :=
    includes (lower (title (data project))) (lower (search st))
    || includes (lower (description (data project))) (lower (search st)) in
  let matchesTag :=
    if truthy (selectedTag st) then
      match selectedTag st with
      | Some t => array_includes (tags (data project)) t
      | None => true
      end
    else true in
  matchesSearch && matchesTag.

Definition filteredProjects_by (lower : string -> string)
    (projects : list Project) (st : State) : list Project :=
  List.filter (keeps_by lower st) projects.

(** *** Texts that differ by the case of ASCII letters *)

Definition is_upper (c : ascii) : bool :=
  (65 <=? nat_of_ascii c)%nat && (nat_of_ascii c <=? 90)%nat.

(** [a] and [b] are the same character, or the upper-case and the
    lower-case form of one of the letters [A]..[Z]. *)
Definition same_letter (a b : ascii) : Prop :=
  a = b
  \/ (is_upper a = true /\ b = ascii_of_nat (nat_of_ascii a + 32))
  \/ (is_upper b = true /\ a = ascii_of_nat (nat_of_ascii b + 32)).

Inductive CaseVariant : string -> string -> Prop :=
| CaseVariant_nil : CaseVariant EmptyString EmptyString
| CaseVariant_cons a b s t :
    same_letter a b -> CaseVariant s t ->
    CaseVariant (String a s) (String b t).

(** *** The array of tag buttons *)

(** [tags.add(t)] on a [Set]: the elements are kept in insertion order and
    a value already present is not added again. *)
Definition set_add (seen : list string) (t : string) : list string :=
  if array_includes seen t then seen else (seen ++ [t])%list.

(** [projects.forEach(p => p.data.tags.forEach(t => tags.add(t)))], from the
    empty set. *)
Definition collect_tags (projects : list Project) : list string :=
  fold_left (fun seen p => fold_left set_add (tags (data p)) seen)
    projects [].

(** [Array.prototype.sort()] without a comparator orders strings by their
    code units, and is stable; an insertion sort gives that order. *)
Fixpoint sort_insert (t : string) (l : list string) : list string :=
  match l with
  | [] => [t]
  | x :: l' => if String.leb t x then t :: l else x :: sort_insert t l'
  end.

Definition array_sort (l : list string) : list string :=
  fold_right sort_insert [] l.

(** [Array.from(tags).sort()]: the array [allTags] the buttons are mapped
    from. *)
Definition allTagsArray (projects : list Project) : list string :=
  array_sort (collect_tags projects).

End Filter.

(* ===================================================================== *)
(** ** The OG image script *)
(* ===================================================================== *)

Module OgScript.

(** A path is the list of its segments; [path.join] appends. *)
Definition path : Type := list string.

Definition path_join (a b : path) : path := (a ++ b)%list.

(** A [Dirent] as [readdir(dir, { withFileTypes: true })] returns it. *)
Record Dirent : Type := {
  name : string;
  isFile : bool
}.

Inductive Fit : Type := cover | contain | fill | inside | outside.
Inductive Position : Type := centre | top | bottom | left | right.
Inductive Format : Type := webp | png | jpeg.

(** What [sharp(input).resize(w, h, {fit, position}).webp({quality}).toFile]
    leaves on disk: an image of the requested size and encoding, made from
    [input]. *)
Record Image : Type := {
  source : path;
  width : Z;
  height : Z;
  fit : Fit;
  position : Position;
  format : Format;
  quality : Z
}.

Inductive Line : Type :=
| MissingSource (dir : path)
| NothingToDo
| Generated (n : nat)
| Failed.

(** Every effect of the script on its environment, in order. *)
Inductive Effect : Type :=
| Mkdir (dir : path)
| Access (dir : path)
| Readdir (dir : path)
| ToFile (input out : path)
| ConsoleLog (l : Line)
| ConsoleError (l : Line).

(** The file system: the paths [fs.access] finds (the directories; when
    the source path is not a directory, [readdir] rejects it), the files
    written under the output directory, and the effects performed so far
    (oldest first). *)
Record FS : Type := {
  dirs : gset (list string);
  files : gmap (list string) Image;
  trace : list Effect
}.

(** What the script meets in its environment: the working directory;
    whether [mkdir] is refused for a directory ([ENOTDIR], [EACCES],
    [EROFS], ...), and then how many directories of the chain it had made
    before; whether [readdir] succeeds on a path; the entries it returns
    then, in the order it returns them; whether the encoder succeeds on an
    input file. *)
Record Env : Type := {
  ROOT : path;
  mkdir_refused : path -> option nat;
  readdir_ok : path -> bool;
  entries : path -> list Dirent;
  sharp_ok : path -> bool
}.

Inductive Exn : Type := ENOENT | MkdirError | ReaddirError | SharpError.

Inductive Outcome (A : Type) : Type :=
| Ok (a : A)
| Throw (e : Exn).
Arguments Ok {A} a.
Arguments Throw {A} e.

(** An [async] computation: it updates the file system and either returns
    or rejects. *)
Definition Async (A : Type) : Type := FS -> Outcome A * FS.

Definition ret {A} (a : A) : Async A := fun st => (Ok a, st).

Definition bind {A B} (c : Async A) (k : A -> Async B) : Async B :=
  fun st =>
    match c st with
    | (Ok a, st') => k a st'
    | (Throw e, st') => (Throw e, st')
    end.

Notation "'await' x '<-' c 'in' k" := (bind c (fun x => k))
  (at level 10, x name, c at level 99, k at level 200).

(** [try { await c; <true> } catch { <false> }] *)
Definition succeeds {A} (c : Async A) : Async bool :=
  fun st =>
    match c st with
    | (Ok _, st') => (Ok true, st')
    | (Throw _, st') => (Ok false, st')
    end.

Definition emit (e : Effect) (st : FS) : FS :=
  {| dirs := dirs st; files := files st; trace := (trace st ++ [e])%list |}.

(** All the prefixes of a path, the path itself included. *)
Fixpoint ancestors (p : path) : list path :=
  match p with
  | [] => [[]]
  | s :: p' => [] :: map (cons s) (ancestors p')
  end.

(** [fs.mkdir(dir, { recursive: true })]: the directory and the missing
    ones above it are created, from the top down; an existing directory is
    not an error. When the call is refused it rejects, having made at most
    the first [k] directories of the chain. *)
Definition fs_mkdir_recursive (refused : path -> option nat) (dir : path)
  : Async unit :=
  fun st =>
    match refused dir with
    | None =>
        (Ok tt,
         emit (Mkdir dir)
           {| dirs := dirs st ∪ list_to_set (ancestors dir);
              files := files st; trace := trace st |})
    | Some k =>
        (Throw MkdirError,
         emit (Mkdir dir)
           {| dirs := dirs st ∪ list_to_set (List.firstn k (ancestors dir));
              files := files st; trace := trace st |})
    end.

(** [fs.access(dir)] rejects when [dir] does not exist. *)
Definition fs_access (dir : path) : Async unit :=
  fun st =>
    (if decide (dir ∈ dirs st) then Ok tt else Throw ENOENT,
     emit (Access dir) st).

Definition console_log (l : Line) : Async unit :=
  fun st => (Ok tt, emit (ConsoleLog l) st).

Definition WIDTH : Z := 1200.
Definition HEIGHT : Z := 630.

(** [path.parse(file).name] on the last segment: the part before the last
    dot, unless that dot opens the segment or the segment is [".."]. *)
Fixpoint before_last_dot (s : string) : option string :=
  match s with
  | EmptyString => None
  | String c s' =>
      match before_last_dot s' with
      | Some n => Some (String c n)
      | None => if Ascii.eqb c "." then Some EmptyString else None
      end
  end.

Definition parse_name (file : path) : string :=
  let base := List.last file EmptyString in
  if String.eqb base ".." then base
  else
    match base with
    | EmptyString => EmptyString
    | String c rest =>
        match before_last_dot rest with
        | Some n => String c n
        | None => base
        end
    end.

Definition outNameFromInput (inputFile : path) : string :=
  (parse_name inputFile ++ ".webp")%string.

Section Script.

Variable env : Env.

Definition OG_SOURCE_DIR : path := path_join (ROOT env) ["src"; "og"]%string.
Definition OG_OUTPUT_DIR : path :=
  path_join (ROOT env) ["public"; "images"; "og"]%string.

Definition ensureDir (dir : path) : Async unit :=
  fs_mkdir_recursive (mkdir_refused env) dir.

(** [fs.readdir(dir, { withFileTypes: true })]: the entries of [dir], or a
    rejection (for instance [ENOTDIR] when [dir] is a regular file). *)
Definition fs_readdir (dir : path) : Async (list Dirent) :=
  fun st =>
    (if readdir_ok env dir then Ok (entries env dir) else Throw ReaddirError,
     emit (Readdir dir) st).

Definition listFiles (dir : path) : Async (list path) :=
  await ents <- fs_readdir dir in
  ret (map (fun e => path_join dir [name e]) (List.filter isFile ents)).

(** The [sharp] pipeline of [buildOne], ending in [toFile]: it rejects, or
    writes the encoded image at [out]. *)
Definition sharp_toFile (input : path) (w h : Z) (f : Fit) (p : Position)
    (q : Z) (out : path) : Async unit :=
  fun st =>
    if sharp_ok env input then
      (Ok tt,
       emit (ToFile input out)
         {| dirs := dirs st;
            files := <[out := {| source := input; width := w; height := h;
                                 fit := f; position := p; format := webp;
                                 quality := q |}]> (files st);
            trace := trace st |})
    else (Throw SharpError, emit (ToFile input out) st).

Definition buildOne (inputFile : path) : Async path :=
  let outFile := path_join OG_OUTPUT_DIR [outNameFromInput inputFile] in
  await _ <- sharp_toFile inputFile WIDTH HEIGHT cover centre 82 outFile in
  ret outFile.

(** [for (const input of inputs) { results.push(await buildOne(input)) }] *)
Fixpoint build_all (inputs : list path) (results : list path)
  : Async (list path) :=
  match inputs with
  | [] => ret results
  | input :: rest =>
      await out <- buildOne input in
      build_all rest (results ++ [out])%list
  end.

Definition main : Async unit :=
  await _ <- ensureDir OG_OUTPUT_DIR in
  await found <- succeeds (fs_access OG_SOURCE_DIR) in
  if negb found then console_log (MissingSource OG_SOURCE_DIR)
  else
    await inputs <- listFiles OG_SOURCE_DIR in
    if (List.length inputs =? 0)%nat then console_log NothingToDo
    else
      await results <- build_all inputs [] in
      console_log (Generated (List.length results)).

(** [main().catch(err => { console.error(...); process.exit(1) })]: the
    exit status of the process and the file system it leaves. *)
Definition run_script (st : FS) : Z * FS :=
  match main st with
  | (Ok _, st') => (0, st')
  | (Throw _, st') => (1, emit (ConsoleError Failed) st')
  end.

End Script.

End OgScript.

(* ===================================================================== *)
(** ** Sample data used by the concrete instances below *)
(* ===================================================================== *)

Definition sample_certificate (n : nat) : Carousel.Certificate :=
  {| Carousel.id := Z.of_nat n; Carousel.title := "Certificate";
     Carousel.issuer := "Issuer"; Carousel.description := EmptyString;
     Carousel.date := "2024"; Carousel.image := None;
     Carousel.link := None |}.

(** A list of five certificates, with ids 0..4. *)
Definition five_certificates : list Carousel.Certificate :=
  map sample_certificate (seq 0 5).

Definition at_index (i : Z) : Carousel.State :=
  Carousel.set_activeIndex (fun _ => i) Carousel.initial.

Definition sample_project (name : string) (labels : list string)
  : Filter.Project :=
  {| Filter.slug := name;
     Filter.data := {| Filter.title := name;
                       Filter.description := EmptyString;
                       Filter.tags := labels; Filter.date := 0;
                       Filter.heroImage := None |} |}.

(** The two projects of the scenario of the specification. *)
Definition foo_bar : list Filter.Project :=
  [sample_project "Foo" ["go"%string]; sample_project "Bar" ["rust"%string]].

(** Two projects, the first of which carries the empty string as a tag. *)
Definition blank_tagged : list Filter.Project :=
  [sample_project "Alpha" [EmptyString];
   sample_project "Beta" ["rust"%string]].

(** The script, seen from outside: where [buildOne] writes the image made
    from [input], what that image is, and the file system after the images
    of [inputs] were written one after the other. *)
Definition out_path (env : OgScript.Env) (input : OgScript.path)
  : OgScript.path :=
  OgScript.path_join (OgScript.OG_OUTPUT_DIR env)
    [OgScript.outNameFromInput input].

Definition og_image (input : OgScript.path) : OgScript.Image :=
  {| OgScript.source := input; OgScript.width := 1200;
     OgScript.height := 630; OgScript.fit := OgScript.cover;
     OgScript.position := OgScript.centre; OgScript.format := OgScript.webp;
     OgScript.quality := 82 |}.

Definition built (env : OgScript.Env) (st : OgScript.FS)
    (input : OgScript.path) : OgScript.FS :=
  OgScript.emit (OgScript.ToFile input (out_path env input))
    {| OgScript.dirs := OgScript.dirs st;
       OgScript.files := <[out_path env input := og_image input]>
                           (OgScript.files st);
       OgScript.trace := OgScript.trace st |}.

Definition built_all (env : OgScript.Env) (inputs : list OgScript.path)
    (st : OgScript.FS) : OgScript.FS :=
  fold_left (built env) inputs st.

(** The regular files of the source directory, as [listFiles] returns
    them. *)
Definition inputs_of (env : OgScript.Env) : list OgScript.path :=
  map (fun e => OgScript.path_join (OgScript.OG_SOURCE_DIR env)
                  [OgScript.name e])
      (List.filter OgScript.isFile
         (OgScript.entries env (OgScript.OG_SOURCE_DIR env))).

(** The file system once [mkdir] has been refused, [k] directories of the
    chain having been made. *)
Definition mkdir_failed (env : OgScript.Env) (k : nat) (st : OgScript.FS)
  : OgScript.FS :=
  OgScript.emit (OgScript.Mkdir (OgScript.OG_OUTPUT_DIR env))
    {| OgScript.dirs :=
         OgScript.dirs st
         ∪ list_to_set
             (List.firstn k
                (OgScript.ancestors (OgScript.OG_OUTPUT_DIR env)));
       OgScript.files := OgScript.files st;
       OgScript.trace := OgScript.trace st |}.

(** The file system once the output directory has been made. *)
Definition after_mkdir (env : OgScript.Env) (st : OgScript.FS)
  : OgScript.FS :=
  OgScript.emit (OgScript.Mkdir (OgScript.OG_OUTPUT_DIR env))
    {| OgScript.dirs :=
         OgScript.dirs st
         ∪ list_to_set (OgScript.ancestors (OgScript.OG_OUTPUT_DIR env));
       OgScript.files := OgScript.files st;
       OgScript.trace := OgScript.trace st |}.

(** The file system once the source directory has been checked, and once
    it has been listed. *)
Definition checked (env : OgScript.Env) (st : OgScript.FS) : OgScript.FS :=
  OgScript.emit (OgScript.Access (OgScript.OG_SOURCE_DIR env))
    (after_mkdir env st).

Definition listed (env : OgScript.Env) (st : OgScript.FS) : OgScript.FS :=
  OgScript.emit (OgScript.Readdir (OgScript.OG_SOURCE_DIR env))
    (checked env st).

(** File names and their extension, in the words of the specification:
    [StemOf file stem] when [stem] is [file] with its extension stripped.
    The extension is what follows the last dot, when that dot is not the
    first character; [".."] has none. *)
Fixpoint has_dot (s : string) : bool :=
  match s with
  | EmptyString => false
  | String c s' => Ascii.eqb c "." || has_dot s'
  end.

Inductive StemOf : string -> string -> Prop :=
| StemOf_ext c stem ext :
    has_dot ext = false ->
    String c (stem ++ "." ++ ext)%string <> ".."%string ->
    StemOf (String c (stem ++ "." ++ ext)) (String c stem)
| StemOf_hidden c rest :
    has_dot rest = false -> StemOf (String c rest) (String c rest)
| StemOf_dotdot : StemOf ".." ".."
| StemOf_empty : StemOf EmptyString EmptyString.

(** A working directory with one source image, [src/og/a.png], which the
    encoder accepts. *)
Definition a_png : OgScript.Dirent :=
  {| OgScript.name := "a.png"; OgScript.isFile := true |}.

Definition site : OgScript.Env :=
  {| OgScript.ROOT := ["site"%string];
     OgScript.mkdir_refused := fun _ => None;
     OgScript.readdir_ok := fun _ => true;
     OgScript.entries := fun _ => [a_png];
     OgScript.sharp_ok := fun _ => true |}.

Definition with_source : OgScript.FS :=
  {| OgScript.dirs := {[ OgScript.OG_SOURCE_DIR site ]};
     OgScript.files := ∅; OgScript.trace := [] |}.

Definition without_source : OgScript.FS :=
  {| OgScript.dirs := ∅; OgScript.files := ∅; OgScript.trace := [] |}.

(** The same directory with three images, the second of which the encoder
    rejects. *)
Definition three_images : OgScript.Env :=
  {| OgScript.ROOT := ["site"%string];
     OgScript.mkdir_refused := fun _ => None;
     OgScript.readdir_ok := fun _ => true;
     OgScript.entries := fun _ =>
       [a_png;
        {| OgScript.name := "b.png"; OgScript.isFile := true |};
        {| OgScript.name := "c.png"; OgScript.isFile := true |}];
     OgScript.sharp_ok := fun input =>
       negb (String.eqb (List.last input EmptyString) "b.png") |}.

(** The same directory when [public] is a regular file: [mkdir] of the
    output directory is refused ([ENOTDIR]) and makes nothing. *)
Definition blocked : OgScript.Env :=
  {| OgScript.ROOT := ["site"%string];
     OgScript.mkdir_refused := fun _ => Some 0%nat;
     OgScript.readdir_ok := fun _ => true;
     OgScript.entries := fun _ => [a_png];
     OgScript.sharp_ok := fun _ => true |}.

(** The same directory when [src/og] is a regular file: [fs.access] finds
    it and [readdir] rejects it. *)
Definition source_is_a_file : OgScript.Env :=
  {| OgScript.ROOT := ["site"%string];
     OgScript.mkdir_refused := fun _ => None;
     OgScript.readdir_ok := fun _ => false;
     OgScript.entries := fun _ => [];
     OgScript.sharp_ok := fun _ => true |}.

(** A source directory listing [a.jpg], [a.png] and [b.png] in that order,
    all accepted by the encoder: the first two share the stem [a]. *)
Definition same_stem : OgScript.Env :=
  {| OgScript.ROOT := ["site"%string];
     OgScript.mkdir_refused := fun _ => None;
     OgScript.readdir_ok := fun _ => true;
     OgScript.entries := fun _ =>
       [{| OgScript.name := "a.jpg"; OgScript.isFile := true |};
        a_png;
        {| OgScript.name := "b.png"; OgScript.isFile := true |}];
     OgScript.sharp_ok := fun _ => true |}.

(** The run in closed form: its exit status, the inputs whose image it
    writes and the directories it leaves, read off what the environment
    answers. *)
Definition exit_status (env : OgScript.Env) (st : OgScript.FS) : Z :=
  match OgScript.mkdir_refused env (OgScript.OG_OUTPUT_DIR env) with
  | Some _ => 1
  | None =>
      if decide (OgScript.OG_SOURCE_DIR env ∈ OgScript.dirs st) then
        if OgScript.readdir_ok env (OgScript.OG_SOURCE_DIR env) then
          if forallb (OgScript.sharp_ok env) (inputs_of env) then 0 else 1
        else 1
      else 0
  end.

Definition dirs_after (env : OgScript.Env) (st : OgScript.FS)
  : gset (list string) :=
  OgScript.dirs st
  ∪ list_to_set
      match OgScript.mkdir_refused env (OgScript.OG_OUTPUT_DIR env) with
      | Some k =>
          List.firstn k (OgScript.ancestors (OgScript.OG_OUTPUT_DIR env))
      | None => OgScript.ancestors (OgScript.OG_OUTPUT_DIR env)
      end.

(** The drag bookkeeping of the carousel: the flag and the start position
    are set and cleared together. *)
Definition drag_coherent (st : Carousel.State) : Prop :=
  Carousel.isDragging st = true <-> Carousel.dragStartX st <> None.

(** The order [sort()] puts the tags in. *)
Definition tag_le (a b : string) : Prop := String.leb a b = true.

(** The inputs the loop of [main] gets through: those before the first one
    the encoder rejects. *)
Fixpoint accepted_prefix (ok : OgScript.path -> bool)
    (inputs : list OgScript.path) : list OgScript.path :=
  match inputs with
  | [] => []
  | i :: rest => if ok i then i :: accepted_prefix ok rest else []
  end.

Definition written_inputs (env : OgScript.Env) (st : OgScript.FS)
  : list OgScript.path :=
  match OgScript.mkdir_refused env (OgScript.OG_OUTPUT_DIR env) with
  | Some _ => []
  | None =>
      if decide (OgScript.OG_SOURCE_DIR env ∈ OgScript.dirs st) then
        if OgScript.readdir_ok env (OgScript.OG_SOURCE_DIR env) then
          accepted_prefix (OgScript.sharp_ok env) (inputs_of env)
        else []
      else []
  end.

(* ===================================================================== *)
(** ** Carousel: transitions, invariant, geometry, gestures *)
(* ===================================================================== *)

Section CarouselFacts.

Import Carousel.

Variable certificates : list Certificate.

Local Abbreviation N := (total certificates).

Lemma js_rem_range a : 1 <= N -> 0 <= a -> 0 <= js_rem a N < N.
Proof. intros HN Ha. unfold js_rem. apply Z.rem_bound_pos; lia. Qed.

Lemma js_rem_is_mod a : 1 <= N -> 0 <= a -> js_rem a N = a mod N.
Proof. intros HN Ha. unfold js_rem. apply Z.rem_mod_nonneg; lia. Qed.

Lemma next_index st :
  activeIndex (nextSlide certificates st) = js_rem (activeIndex st + 1) N.
Proof. reflexivity. Qed.

Lemma prev_index st :
  activeIndex (prevSlide certificates st) = js_rem (activeIndex st - 1 + N) N.
Proof. reflexivity. Qed.

(** [next] and [prev] touch no other cell of the state. *)
Lemma next_frame st :
  nextSlide certificates st =
  set_activeIndex (fun _ => js_rem (activeIndex st + 1) N) st.
Proof. reflexivity. Qed.

Lemma prev_frame st :
  prevSlide certificates st =
  set_activeIndex (fun _ => js_rem (activeIndex st - 1 + N) N) st.
Proof. reflexivity. Qed.

Lemma next_in_range st :
  1 <= N -> 0 <= activeIndex st < N ->
  0 <= activeIndex (nextSlide certificates st) < N.
Proof. intros HN Hi. rewrite next_index. apply js_rem_range; lia. Qed.

Lemma prev_in_range st :
  1 <= N -> 0 <= activeIndex st < N ->
  0 <= activeIndex (prevSlide certificates st) < N.
Proof. intros HN Hi. rewrite prev_index. apply js_rem_range; lia. Qed.

(** The remainder of [i + 1], by cases on whether [i] is the last index. *)
Lemma rem_succ i :
  1 <= N -> 0 <= i < N ->
  js_rem (i + 1) N = if i + 1 =? N then 0 else i + 1.
Proof.
  intros HN Hi. unfold js_rem.
  destruct (Z.eqb_spec (i + 1) N) as [E | E].
  - rewrite E. apply Z.rem_same. lia.
  - apply Z.rem_small. lia.
Qed.

(** The remainder of [i - 1 + N], by cases on whether [i] is the first
    index. *)
Lemma rem_pred i :
  1 <= N -> 0 <= i < N ->
  js_rem (i - 1 + N) N = if i =? 0 then N - 1 else i - 1.
Proof.
  intros HN Hi. rewrite js_rem_is_mod by lia.
  destruct (Z.eqb_spec i 0) as [E | E].
  - subst i. replace (0 - 1 + N) with (N - 1) by lia. apply Z.mod_small. lia.
  - replace (i - 1 + N) with (i - 1 + 1 * N) by lia.
    rewrite Z.mod_add by lia. apply Z.mod_small. lia.
Qed.

Lemma prev_after_next st :
  1 <= N -> 0 <= activeIndex st < N ->
  prevSlide certificates (nextSlide certificates st) = st.
Proof.
  destruct st as [i ts te d ds]; cbn [activeIndex]; intros HN Hi.
  unfold prevSlide, nextSlide, set_activeIndex; cbn. f_equal.
  rewrite (rem_succ i) by lia.
  destruct (Z.eqb_spec (i + 1) N) as [E | E].
  - rewrite (rem_pred 0) by lia. cbn. lia.
  - rewrite (rem_pred (i + 1)) by lia.
    destruct (Z.eqb_spec (i + 1) 0); lia.
Qed.

Lemma next_after_prev st :
  1 <= N -> 0 <= activeIndex st < N ->
  nextSlide certificates (prevSlide certificates st) = st.
Proof.
  destruct st as [i ts te d ds]; cbn [activeIndex]; intros HN Hi.
  unfold prevSlide, nextSlide, set_activeIndex; cbn. f_equal.
  rewrite (rem_pred i) by lia.
  destruct (Z.eqb_spec i 0) as [E | E].
  - rewrite (rem_succ (N - 1)) by lia.
    destruct (Z.eqb_spec (N - 1 + 1) N); lia.
  - rewrite (rem_succ (i - 1)) by lia.
    destruct (Z.eqb_spec (i - 1 + 1) N); lia.
Qed.

(** **** The handlers keep the index in range *)

Lemma stop_drag_index st : activeIndex (stop_drag st) = activeIndex st.
Proof. reflexivity. Qed.

Lemma handle_in_range ev st :
  1 <= N -> rendered certificates ev -> in_range certificates st ->
  in_range certificates (handle certificates ev st).
Proof.
  unfold in_range. intros HN Hev Hst.
  destruct ev; cbn [handle]; try exact Hst.
  - unfold onTouchEnd.
    destruct (falsy (touchStart st) || falsy (touchEnd st)); [exact Hst |].
    destruct (touchStart st) as [s |], (touchEnd st) as [e |]; try exact Hst.
    cbv zeta.
    destruct (minSwipeDistance <? s - e); [now apply next_in_range |].
    destruct (s - e <? - minSwipeDistance);
      [now apply prev_in_range | exact Hst].
  - unfold onMouseUp.
    destruct (isDragging st); [| exact Hst].
    destruct (dragStartX st) as [s |]; [| exact Hst].
    cbv zeta. rewrite stop_drag_index.
    destruct (minSwipeDistance <? s - clientX); [now apply next_in_range |].
    destruct (s - clientX <? - minSwipeDistance);
      [now apply prev_in_range | exact Hst].
  - unfold onCardClick.
    destruct (negb (isDragging st)); [exact Hev | exact Hst].
  - now apply prev_in_range.
  - now apply next_in_range.
Qed.

Lemma run_in_range evs : forall st,
  1 <= N -> Forall (rendered certificates) evs -> in_range certificates st ->
  in_range certificates (run certificates evs st).
Proof.
  induction evs as [| ev evs IH]; intros st HN Hevs Hst; [exact Hst |].
  inversion Hevs as [| ? ? Hev Hrest]; subst.
  cbn [run fold_left]. apply IH; [exact HN | exact Hrest |].
  now apply handle_in_range.
Qed.

(** **** [getCardStyle]: the normalised distance *)

Lemma Qltb_half_left t d : Qltb (inject_Z t / 2) (inject_Z d) = (t <? 2 * d).
Proof.
  unfold Qltb, Qle_bool. cbn. change (Z.pos (1 * 2)) with 2.
  destruct (Z.leb_spec (d * 2) (t * 1 * 1)), (Z.ltb_spec t (2 * d));
    cbn; try reflexivity; lia.
Qed.

Lemma Qltb_half_right t d :
  Qltb (inject_Z d) (- inject_Z t / 2) = (2 * d <? - t).
Proof.
  unfold Qltb, Qle_bool. cbn. change (Z.pos (1 * 2)) with 2.
  destruct (Z.leb_spec (- t * 1 * 1) (d * 2)), (Z.ltb_spec (2 * d) (- t));
    cbn; try reflexivity; lia.
Qed.

(** The two comparisons against [total / 2], over the integers. *)
Lemma normalizedDiff_Z a i :
  normalizedDiff certificates a i =
  let d := i - a in
  let d := if N <? 2 * d then d - N else d in
  if 2 * d <? - N then d + N else d.
Proof.
  unfold normalizedDiff. cbv zeta.
  now rewrite Qltb_half_left, Qltb_half_right.
Qed.

Lemma normalizedDiff_self a : normalizedDiff certificates a a = 0.
Proof.
  rewrite normalizedDiff_Z. cbv zeta. replace (a - a) with 0 by lia.
  destruct (Z.ltb_spec N (2 * 0)); [unfold total in *; lia |].
  destruct (Z.ltb_spec (2 * 0) (- N)); [unfold total in *; lia |].
  reflexivity.
Qed.

Lemma normalizedDiff_bound a i :
  1 <= N -> 0 <= a < N -> 0 <= i < N ->
  Z.abs (normalizedDiff certificates a i) <= N / 2.
Proof.
  intros HN Ha Hi. rewrite normalizedDiff_Z. cbv zeta.
  pose proof (Z.mul_div_le N 2 ltac:(lia)) as Hlo.
  pose proof (Z.mul_succ_div_gt N 2 ltac:(lia)) as Hhi.
  set (h := N / 2) in *.
  destruct (Z.ltb_spec N (2 * (i - a))).
  - destruct (Z.ltb_spec (2 * (i - a - N)) (- N)); lia.
  - destruct (Z.ltb_spec (2 * (i - a)) (- N)); lia.
Qed.

(** The normalised distance is congruent to [index - activeIndex]: the card
    keeps its place on the circle. *)
Lemma normalizedDiff_congruent a i :
  exists k, normalizedDiff certificates a i = i - a + k * N.
Proof.
  rewrite normalizedDiff_Z. cbv zeta.
  destruct (N <? 2 * (i - a)).
  - destruct (2 * (i - a - N) <? - N); [exists 0 | exists (-1)]; lia.
  - destruct (2 * (i - a) <? - N); [exists 1 | exists 0]; lia.
Qed.

(** **** Gestures *)

(** A mouse drag from [s] to [e]: the release compares [s - e] with the
    threshold, whatever the two coordinates are. *)
Lemma mouse_drag_release s e st :
  run certificates [MouseDown s; MouseUp e] st =
  stop_drag (if 50 <? s - e then nextSlide certificates st
             else if s - e <? -50 then prevSlide certificates st
             else st).
Proof.
  cbn [run fold_left handle]. unfold onMouseUp, onMouseDown; cbn.
  change minSwipeDistance with 50. change (- (50)) with (-50).
  destruct (50 <? s - e); [reflexivity |].
  destruct (s - e <? -50); reflexivity.
Qed.

(** A touch from [s] to [e], neither of them the coordinate [0]. *)
Lemma touch_release s e st :
  s <> 0 -> e <> 0 ->
  activeIndex (run certificates [TouchStart s; TouchMove e; TouchEnd] st) =
  activeIndex (if 50 <? s - e then nextSlide certificates st
               else if s - e <? -50 then prevSlide certificates st
               else st).
Proof.
  intros Hs He. cbn [run fold_left handle].
  unfold onTouchEnd, onTouchMove, onTouchStart, falsy; cbn.
  destruct (Z.eqb_spec s 0); [contradiction |].
  destruct (Z.eqb_spec e 0); [contradiction |]. cbn.
  change minSwipeDistance with 50. change (- (50)) with (-50).
  destruct (50 <? s - e); [reflexivity |].
  destruct (s - e <? -50); reflexivity.
Qed.

(** A touch that starts or ends at the coordinate [0] is dropped: [!0] is
    true, as [!null] is. *)
Lemma touch_release_at_zero s e st :
  s = 0 \/ e = 0 ->
  activeIndex (run certificates [TouchStart s; TouchMove e; TouchEnd] st) =
  activeIndex st.
Proof.
  intros H. cbn [run fold_left handle].
  unfold onTouchEnd, onTouchMove, onTouchStart, falsy; cbn.
  destruct (Z.eqb_spec s 0), (Z.eqb_spec e 0); cbn; try reflexivity; lia.
Qed.

(** A touch that never moved has no release position: nothing happens. *)
Lemma touch_without_move s st :
  activeIndex (run certificates [TouchStart s; TouchEnd] st) = activeIndex st.
Proof.
  cbn [run fold_left handle]. unfold onTouchEnd, onTouchStart, falsy; cbn.
  rewrite orb_true_r. reflexivity.
Qed.

(** While the button is held, a click on a card is ignored. *)
Lemma click_while_dragging i st :
  isDragging st = true -> onCardClick i st = st.
Proof. intros H. unfold onCardClick. now rewrite H. Qed.

(** The release clears the flag the click looks at: the click that follows
    a release always lands. *)
Lemma click_after_release s e i st :
  activeIndex (run certificates [MouseDown s; MouseUp e; CardClick i] st) = i.
Proof.
  change (run certificates [MouseDown s; MouseUp e; CardClick i] st)
    with (onCardClick i (run certificates [MouseDown s; MouseUp e] st)).
  rewrite mouse_drag_release. reflexivity.
Qed.

End CarouselFacts.

(** **** Stated properties of the carousel *)

(** C2: for a list of [N >= 1] certificates and an [activeIndex] [i] in
    [[0, N)], [next] sets the index to [(i + 1) mod N] and [prev] sets it to
    [(i - 1 + N) mod N]; with [N = 5] and [i = 4], [next] gives [0]. *)
Theorem carousel_next_prev_mod (certificates : list Carousel.Certificate)
    (st : Carousel.State) :
  1 <= Carousel.total certificates ->
  0 <= Carousel.activeIndex st < Carousel.total certificates ->
  Carousel.activeIndex (Carousel.nextSlide certificates st)
    = (Carousel.activeIndex st + 1) mod Carousel.total certificates
  /\ Carousel.activeIndex (Carousel.prevSlide certificates st)
    = (Carousel.activeIndex st - 1 + Carousel.total certificates)
        mod Carousel.total certificates
  /\ (Carousel.total certificates = 5 -> Carousel.activeIndex st = 4 ->
      Carousel.activeIndex (Carousel.nextSlide certificates st) = 0).
Proof.
  intros HN Hi. rewrite next_index, prev_index.
  rewrite !js_rem_is_mod by lia. repeat split.
  intros E5 E4. rewrite E5, E4. reflexivity.
Qed.

Lemma carousel_next_prev_mod_witness :
  1 <= Carousel.total five_certificates
  /\ Carousel.activeIndex
       (Carousel.nextSlide five_certificates (at_index 4)) = 0.
Proof.
  split; [cbv; discriminate |].
  refine (proj2 (proj2
    (carousel_next_prev_mod five_certificates (at_index 4) _ _))
    eq_refl eq_refl).
  - cbv; discriminate.
  - cbv; split; [discriminate | reflexivity].
Defined.

(** C3: for a non-empty certificate list, starting from [activeIndex = 0],
    every sequence of events whose card clicks carry the index of a rendered
    card (in [[0, N)]) leaves [0 <= activeIndex < N]; the events include
    [next], [prev] and [jumpTo], and the gestures that call them. *)
Theorem carousel_index_invariant (certificates : list Carousel.Certificate)
    (evs : list Carousel.Event) :
  1 <= Carousel.total certificates ->
  Forall (Carousel.rendered certificates) evs ->
  0 <= Carousel.activeIndex (Carousel.run certificates evs Carousel.initial)
    < Carousel.total certificates.
Proof.
  intros HN Hevs.
  apply (run_in_range certificates evs Carousel.initial HN Hevs).
  unfold Carousel.in_range; cbn. lia.
Qed.

Lemma carousel_index_invariant_witness :
  0 <= Carousel.activeIndex
         (Carousel.run five_certificates
            [Carousel.NextButton; Carousel.CardClick 3; Carousel.NextButton;
             Carousel.NextButton; Carousel.PrevButton;
             Carousel.MouseDown 300; Carousel.MouseUp 100;
             Carousel.TouchStart 10; Carousel.TouchMove 200;
             Carousel.TouchEnd]
            Carousel.initial)
    < Carousel.total five_certificates.
Proof.
  apply carousel_index_invariant.
  - cbv; discriminate.
  - repeat constructor; cbv; discriminate.
Defined.

(** C4: for [N >= 1] and [activeIndex] in [[0, N)], [next] then [prev], and
    [prev] then [next], give back the state they started from. *)
Theorem carousel_round_trip (certificates : list Carousel.Certificate)
    (st : Carousel.State) :
  1 <= Carousel.total certificates ->
  0 <= Carousel.activeIndex st < Carousel.total certificates ->
  Carousel.prevSlide certificates (Carousel.nextSlide certificates st) = st
  /\ Carousel.nextSlide certificates (Carousel.prevSlide certificates st) = st.
Proof.
  intros HN Hi. split.
  - now apply prev_after_next.
  - now apply next_after_prev.
Qed.

Lemma carousel_round_trip_witness :
  Carousel.prevSlide five_certificates
    (Carousel.nextSlide five_certificates (at_index 4)) = at_index 4
  /\ Carousel.nextSlide five_certificates
    (Carousel.prevSlide five_certificates (at_index 0)) = at_index 0.
Proof.
  split.
  - apply (carousel_round_trip five_certificates (at_index 4));
      [cbv; discriminate | cbv; split; [discriminate | reflexivity]].
  - apply (carousel_round_trip five_certificates (at_index 0));
      [cbv; discriminate | cbv; split; [discriminate | reflexivity]].
Defined.

(** C5: for [N >= 1], [activeIndex] and a card index [i] both in [[0, N)],
    the normalised distance of [getCardStyle] is [0] for the active card and
    its absolute value is at most [floor(N / 2)] for every card. *)
Theorem card_distance_bounded (certificates : list Carousel.Certificate)
    (active i : Z) :
  1 <= Carousel.total certificates ->
  0 <= active < Carousel.total certificates ->
  0 <= i < Carousel.total certificates ->
  Carousel.normalizedDiff certificates active active = 0
  /\ Z.abs (Carousel.normalizedDiff certificates active i)
     <= Carousel.total certificates / 2.
Proof.
  intros HN Ha Hi. split.
  - apply normalizedDiff_self.
  - now apply normalizedDiff_bound.
Qed.

Lemma card_distance_bounded_witness :
  Carousel.normalizedDiff five_certificates 0 0 = 0
  /\ Z.abs (Carousel.normalizedDiff five_certificates 0 4) <= 5 / 2.
Proof.
  apply (card_distance_bounded five_certificates 0 4);
    [cbv; discriminate | |]; cbv; split; (discriminate || reflexivity).
Defined.

(** C6, evaluated on the code: a drag of 100 px to the left on a list of
    five certificates moves the index from [0] to [1]; the click event that
    follows the release, on the card of index [3], then sets the index to
    [3]: the test [!isDragging] of the click handler sees the flag already
    cleared by [onMouseUp]. A click during the drag is ignored. *)
Theorem click_after_drag_release_jumps :
  Carousel.activeIndex
    (Carousel.run five_certificates
       [Carousel.MouseDown 300; Carousel.MouseUp 200] Carousel.initial) = 1
  /\ Carousel.activeIndex
    (Carousel.run five_certificates
       [Carousel.MouseDown 300; Carousel.MouseUp 200; Carousel.CardClick 3]
       Carousel.initial) = 3
  /\ Carousel.activeIndex
    (Carousel.run five_certificates
       [Carousel.MouseDown 300; Carousel.CardClick 3] Carousel.initial) = 0.
Proof. repeat split. Qed.

(** C7, evaluated on the code: a touch that starts at [x = 100] and is
    released at [x = 0] is a leftward swipe of 100 px, yet the index stays
    at [0]: [onTouchEnd] returns early because [!touchEnd] holds for the
    coordinate [0]. The same movement with the mouse moves to index [1]. *)
Theorem touch_swipe_to_edge_ignored :
  50 < 100 - 0
  /\ Carousel.activeIndex
       (Carousel.run five_certificates
          [Carousel.TouchStart 100; Carousel.TouchMove 0; Carousel.TouchEnd]
          Carousel.initial) = 0
  /\ Carousel.activeIndex
       (Carousel.run five_certificates
          [Carousel.MouseDown 100; Carousel.MouseUp 0] Carousel.initial) = 1
  /\ Carousel.activeIndex
       (Carousel.run five_certificates
          [Carousel.TouchStart 100; Carousel.TouchMove 1; Carousel.TouchEnd]
          Carousel.initial) = 1.
Proof. repeat split. Qed.

(* ===================================================================== *)
(** ** Project filter: the callback meets the contract *)
(* ===================================================================== *)

Section FilterFacts.

Import Filter.

Local Open Scope string_scope.

Lemma append_String c (a b : string) : String c a ++ b = String c (a ++ b).
Proof. reflexivity. Qed.

Lemma startsWith_spec q : forall s,
  startsWith s q = true <-> exists suf, s = q ++ suf.
Proof.
  induction q as [| b q IH]; intros s.
  - destruct s; cbn; split; eauto.
  - destruct s as [| a s]; cbn.
    + split; [discriminate | intros [suf H]; discriminate].
    + destruct (Ascii.eqb_spec a b) as [-> | Hne].
      * rewrite IH. split; intros [suf H]; exists suf.
        -- now rewrite H.
        -- now injection H.
      * split; [discriminate |]. intros [suf H]. injection H as Hab _.
        contradiction.
Qed.

Lemma includes_unfold s q :
  includes s q =
  if startsWith s q then true
  else match s with
       | EmptyString => false
       | String _ s' => includes s' q
       end.
Proof. destruct s; reflexivity. Qed.

(** [includes] finds [q] exactly when [q] is a substring. *)
Lemma includes_spec q : forall s,
  includes s q = true <-> exists pre suf, s = pre ++ q ++ suf.
Proof.
  intros s. split.
  - induction s as [| a s IH]; rewrite includes_unfold.
    + destruct (startsWith EmptyString q) eqn:E; [| discriminate].
      intros _. apply startsWith_spec in E as [suf E].
      exists EmptyString, suf. exact E.
    + destruct (startsWith (String a s) q) eqn:E.
      * intros _. apply startsWith_spec in E as [suf E].
        exists EmptyString, suf. exact E.
      * intros H. destruct (IH H) as (pre & suf & Hs).
        exists (String a pre), suf. cbn. now rewrite Hs.
  - intros (pre & suf & Hs). revert s Hs.
    induction pre as [| a pre IH]; intros s Hs; rewrite includes_unfold.
    + assert (E : startsWith s q = true)
        by (apply startsWith_spec; exists suf; exact Hs).
      now rewrite E.
    + cbn in Hs. subst s. destruct (startsWith _ q); [reflexivity |].
      now apply IH.
Qed.

Lemma includes_empty s : includes s EmptyString = true.
Proof. apply includes_spec. exists EmptyString, s. reflexivity. Qed.

Lemma toLowerCase_app a b :
  toLowerCase (a ++ b) = toLowerCase a ++ toLowerCase b.
Proof.
  induction a as [| c a IH]; [reflexivity |].
  rewrite append_String. cbn [toLowerCase]. now rewrite IH, append_String.
Qed.

(** [toLowerCase] works character by character: a split of the lowered
    text is the lowering of a split of the text. *)
Lemma toLowerCase_split a : forall s b,
  toLowerCase s = a ++ b ->
  exists s1 s2, s = s1 ++ s2 /\ toLowerCase s1 = a /\ toLowerCase s2 = b.
Proof.
  induction a as [| c a IH]; intros s b H.
  - exists EmptyString, s. auto.
  - destruct s as [| d s]; cbn in H; [discriminate |].
    injection H as Hc Hs. destruct (IH s b Hs) as (s1 & s2 & E & H1 & H2).
    exists (String d s1), s2. cbn. now rewrite E, H1, Hc.
Qed.

(** Lowering both texts and searching is the case-insensitive search. *)
Lemma includes_lower_spec s q :
  includes (toLowerCase s) (toLowerCase q) = true <-> contains_ci s q.
Proof.
  rewrite includes_spec. unfold contains_ci, same_ignoring_case. split.
  - intros (pre & suf & H).
    destruct (toLowerCase_split _ _ _ H) as (s1 & s23 & E & H1 & H23).
    destruct (toLowerCase_split _ _ _ H23) as (s2 & s3 & E' & H2 & H3).
    exists s1, s2, s3. now rewrite <- E', <- E.
  - intros (pre & w & suf & E & Hw).
    exists (toLowerCase pre), (toLowerCase suf).
    now rewrite E, !toLowerCase_app, Hw.
Qed.

Lemma contains_ci_empty s : contains_ci s EmptyString.
Proof. exists EmptyString, EmptyString, s. split; reflexivity. Qed.

Lemma array_includes_spec l t : array_includes l t = true <-> In t l.
Proof.
  unfold array_includes. rewrite existsb_exists. split.
  - intros (x & Hx & E). apply String.eqb_eq in E. now subst.
  - intros H. exists t. split; [exact H | apply String.eqb_refl].
Qed.

(** The tag test of the callback, for every state but the empty string selected. *)
Lemma keeps_spec st p :
  selectedTag st <> Some EmptyString ->
  keeps st p = true <-> Matches (search st) (selectedTag st) p.
Proof.
  intros Hne. unfold keeps, Matches. cbv zeta.
  rewrite andb_true_iff, orb_true_iff, !includes_lower_spec.
  apply and_iff_compat_l.
  destruct (selectedTag st) as [[| c t] |]; cbn.
  - contradiction.
  - rewrite array_includes_spec. split.
    + intros H tag E. now injection E as <-.
    + intros H. now apply H.
  - split; [intros _ tag E; discriminate | reflexivity].
Qed.

(** With the empty string selected the tag test is skipped. *)
Lemma keeps_blank_tag st p :
  selectedTag st = Some EmptyString ->
  keeps st p = keeps (onSearch (search st) initial) p.
Proof. intros H. unfold keeps. rewrite H. reflexivity. Qed.

Lemma filter_Selects {A} (f : A -> bool) (M : A -> Prop) l :
  (forall x, f x = true <-> M x) -> Selects M l (List.filter f l).
Proof.
  intros Hf. induction l as [| x l IH]; cbn; [constructor |].
  destruct (f x) eqn:E.
  - apply Selects_keep; [now apply Hf | exact IH].
  - apply Selects_drop; [| exact IH]. intros HM. apply Hf in HM. congruence.
Qed.

(** [Selects] determines its result. *)
Lemma Selects_functional {A} (M : A -> Prop) l r r' :
  Selects M l r -> Selects M l r' -> r = r'.
Proof.
  intros H. revert r'.
  induction H as [| x l r Hx H IH | x l r Hx H IH]; intros r' H';
    inversion H'; subst; try contradiction; auto.
  f_equal. auto.
Qed.

(** The result is a sub-sequence, in order, with exactly the matching
    elements. *)
Lemma Selects_sublist {A} (M : A -> Prop) l r :
  Selects M l r -> sublist r l.
Proof.
  induction 1; [constructor | now apply sublist_skip | now apply sublist_cons].
Qed.

Lemma Selects_In {A} (M : A -> Prop) l r :
  Selects M l r -> forall x, In x r <-> In x l /\ M x.
Proof.
  induction 1 as [| y l r Hy H IH | y l r Hy H IH]; intros x; cbn.
  - tauto.
  - rewrite IH. split; [intros [-> | [? ?]]; auto | tauto].
  - rewrite IH. split; [tauto |]. intros [[-> | ?] ?]; [contradiction | auto].
Qed.

(** The contract of the filter, for every search text and every selected
    tag other than the empty string. *)
Lemma filteredProjects_contract projects st :
  selectedTag st <> Some EmptyString ->
  Selects (Matches (search st) (selectedTag st)) projects
          (filteredProjects projects st).
Proof.
  intros Hne. apply filter_Selects. intros p. now apply keeps_spec.
Qed.

Lemma filteredProjects_all projects st :
  search st = EmptyString -> selectedTag st = None ->
  filteredProjects projects st = projects.
Proof.
  intros Hq Ht. unfold filteredProjects.
  induction projects as [| p l IH]; cbn; [reflexivity |].
  assert (E : keeps st p = true).
  { unfold keeps. rewrite Hq, Ht. cbn. now rewrite includes_empty. }
  now rewrite E, IH.
Qed.

(** The scenario of the specification: no search text, tag [go]. *)
Example filter_scenario_go :
  filteredProjects foo_bar (onTagClick "go" initial)
  = [sample_project "Foo" ["go"]].
Proof. reflexivity. Qed.

Example filter_ignores_case :
  filteredProjects foo_bar (onSearch "bA" initial)
  = [sample_project "Bar" ["rust"]].
Proof. reflexivity. Qed.

End FilterFacts.

(** C1, evaluated on the code: with the projects [Alpha] (tagged with the
    empty string) and [Beta] (tagged [rust]), the empty string is one of the
    tag buttons; clicking it selects it ([selectedTag] is the empty string,
    not [null]), and the filter then returns both projects, although [Beta]
    does not carry the selected tag: the test [selectedTag ? ... : true]
    takes the empty string for no selection. *)
Theorem blank_tag_not_filtered :
  EmptyString ∈ Filter.allTags blank_tagged
  /\ Filter.selectedTag (Filter.onTagClick EmptyString Filter.initial)
     = Some EmptyString
  /\ Filter.noTagSelected (Filter.onTagClick EmptyString Filter.initial)
     = false
  /\ Filter.filteredProjects blank_tagged
       (Filter.onTagClick EmptyString Filter.initial) = blank_tagged
  /\ ~ Filter.Matches EmptyString (Some EmptyString)
         (sample_project "Beta" ["rust"%string])
  /\ ~ Filter.Selects (Filter.Matches EmptyString (Some EmptyString))
         blank_tagged
         (Filter.filteredProjects blank_tagged
            (Filter.onTagClick EmptyString Filter.initial)).
Proof.
  assert (HB : ~ Filter.Matches EmptyString (Some EmptyString)
                 (sample_project "Beta" ["rust"%string])).
  { intros [_ H]. specialize (H EmptyString eq_refl). cbn in H.
    destruct H as [H | []]. discriminate. }
  split; [| split; [| split; [| split; [| split]]]].
  - unfold Filter.allTags, blank_tagged. cbn. set_solver.
  - reflexivity.
  - reflexivity.
  - reflexivity.
  - exact HB.
  - intros H.
    destruct (proj1 (Selects_In _ _ _ H
                       (sample_project "Beta" ["rust"%string])))
      as [_ HM]; [right; left; reflexivity | exact (HB HM)].
Qed.

(* ===================================================================== *)
(** ** OG image script: outputs, failures, order of effects *)
(* ===================================================================== *)

Section ScriptFacts.

Import OgScript.

Variable env : Env.

Local Abbreviation SRC := (OG_SOURCE_DIR env).
Local Abbreviation OUT := (OG_OUTPUT_DIR env).

(** **** Paths *)

Lemma elem_of_ancestors (p : path) : forall q : path,
  q ∈ ancestors p <-> q `prefix_of` p.
Proof.
  induction p as [| s p IH]; intros q; cbn [ancestors].
  - rewrite list_elem_of_singleton. split.
    + intros ->. reflexivity.
    + intros H. now apply prefix_nil_inv.
  - rewrite elem_of_cons, list_elem_of_fmap. split.
    + intros [-> | (q' & -> & Hq')]; [apply prefix_nil |].
      apply prefix_cons, IH, Hq'.
    + destruct q as [| t q]; [now left |]. intros H. right.
      pose proof (prefix_cons_inv_1 _ _ _ _ H) as ->.
      exists q. split; [reflexivity |].
      apply IH. exact (prefix_cons_inv_2 _ _ _ _ H).
Qed.

Lemma output_dir_made st : OUT ∈ dirs (after_mkdir env st).
Proof.
  cbn. apply elem_of_union_r, elem_of_list_to_set, elem_of_ancestors.
  reflexivity.
Qed.

(** Making the output directory never makes the source directory. *)
Lemma source_not_above_output : SRC ∉ ancestors OUT.
Proof.
  rewrite elem_of_ancestors. intros [k Hk].
  unfold OG_OUTPUT_DIR, OG_SOURCE_DIR, path_join in Hk.
  rewrite <- app_assoc in Hk. apply app_inv_head in Hk. discriminate.
Qed.

Lemma source_after_mkdir st :
  SRC ∈ dirs (after_mkdir env st) <-> SRC ∈ dirs st.
Proof.
  cbn. rewrite elem_of_union, elem_of_list_to_set.
  pose proof source_not_above_output. tauto.
Qed.

(** **** The loop over the inputs *)

Lemma buildOne_ok input st :
  sharp_ok env input = true ->
  buildOne env input st = (Ok (out_path env input), built env st input).
Proof.
  intros H. unfold buildOne, bind, sharp_toFile. rewrite H. reflexivity.
Qed.

Lemma buildOne_fail input st :
  sharp_ok env input = false ->
  buildOne env input st
  = (Throw SharpError, emit (ToFile input (out_path env input)) st).
Proof.
  intros H. unfold buildOne, bind, sharp_toFile. rewrite H. reflexivity.
Qed.

(** The loop either encodes every input, or stops at the first input the
    encoder rejects, with the outputs of the earlier inputs in place. *)
Lemma build_all_cases inputs : forall results st,
  (forallb (sharp_ok env) inputs = true
   /\ build_all env inputs results st
      = (Ok (results ++ map (out_path env) inputs)%list,
         built_all env inputs st))
  \/ (exists pre x post,
        inputs = (pre ++ x :: post)%list
        /\ forallb (sharp_ok env) pre = true
        /\ sharp_ok env x = false
        /\ build_all env inputs results st
           = (Throw SharpError,
              emit (ToFile x (out_path env x)) (built_all env pre st))).
Proof.
  induction inputs as [| input rest IH]; intros results st.
  - left. split; [reflexivity |]. cbn. unfold ret. now rewrite app_nil_r.
  - cbn [build_all]. unfold bind.
    destruct (sharp_ok env input) eqn:E.
    + rewrite (buildOne_ok _ _ E).
      destruct (IH (results ++ [out_path env input])%list
                  (built env st input))
        as [[Hall Hrun] | (pre & x & post & -> & Hpre & Hx & Hrun)].
      * left. split; [cbn; now rewrite E, Hall |].
        rewrite Hrun. cbn. now rewrite <- app_assoc.
      * right. exists (input :: pre), x, post.
        split; [reflexivity |]. split; [cbn; now rewrite E, Hpre |].
        split; [exact Hx | exact Hrun].
    + rewrite (buildOne_fail _ _ E). right. exists [], input, rest.
      repeat split; assumption.
Qed.

Lemma built_all_snoc inputs x st :
  built_all env (inputs ++ [x]) st = built env (built_all env inputs st) x.
Proof. unfold built_all. now rewrite fold_left_app. Qed.

Lemma built_all_dirs inputs st : dirs (built_all env inputs st) = dirs st.
Proof.
  induction inputs as [| x l IH] using rev_ind; [reflexivity |].
  now rewrite built_all_snoc.
Qed.

Lemma built_all_trace inputs st :
  trace (built_all env inputs st)
  = (trace st ++ map (fun i => ToFile i (out_path env i)) inputs)%list.
Proof.
  induction inputs as [| x l IH] using rev_ind.
  - cbn. now rewrite app_nil_r.
  - rewrite built_all_snoc. cbn. rewrite IH, map_app, app_assoc. reflexivity.
Qed.

(** Every input has its image at its output path: the one made from the
    last input that maps there. *)
Lemma built_all_lookup inputs st i :
  In i inputs ->
  exists j, In j inputs /\ out_path env j = out_path env i
            /\ files (built_all env inputs st) !! out_path env i
               = Some (og_image j).
Proof.
  induction inputs as [| x l IH] using rev_ind; [intros [] |].
  intros Hi. rewrite built_all_snoc. cbn [built files emit].
  destruct (decide (out_path env x = out_path env i)) as [E | E].
  - exists x. rewrite in_app_iff. split; [right; now left |].
    split; [exact E |]. rewrite E. apply lookup_insert_eq.
  - rewrite lookup_insert_ne by exact E.
    apply in_app_iff in Hi as [Hi | [-> | []]]; [| now destruct E].
    destruct (IH Hi) as (j & Hj & Ej & Hl). exists j.
    rewrite in_app_iff. auto.
Qed.

(** Nothing else is written. *)
Lemma built_all_frame inputs st p :
  (forall i, In i inputs -> p <> out_path env i) ->
  files (built_all env inputs st) !! p = files st !! p.
Proof.
  induction inputs as [| x l IH] using rev_ind; [reflexivity |].
  intros H. rewrite built_all_snoc. cbn [built files emit].
  rewrite lookup_insert_ne.
  - apply IH. intros i Hi. apply H, in_app_iff. now left.
  - intros E. apply (H x); [apply in_app_iff; right; now left | now symmetry].
Qed.

(** When no two inputs share an output path and none of these paths is
    taken, the loop adds exactly one file per input. *)
Lemma built_all_size inputs st :
  NoDup (map (out_path env) inputs) ->
  (forall i, In i inputs -> files st !! out_path env i = None) ->
  size (files (built_all env inputs st))
  = (size (files st) + List.length inputs)%nat.
Proof.
  induction inputs as [| x l IH] using rev_ind; intros Hnd Hfree.
  - cbn. lia.
  - rewrite map_app in Hnd. apply NoDup_app in Hnd as (Hl & Hx & _).
    rewrite built_all_snoc. cbn [built files emit].
    rewrite map_size_insert_None.
    + rewrite IH; [rewrite length_app; cbn; lia | exact Hl |].
      intros i Hi. apply Hfree, in_app_iff. now left.
    + rewrite built_all_frame.
      * apply Hfree, in_app_iff. right. now left.
      * intros i Hi E. apply (Hx (out_path env i)).
        -- apply list_elem_of_In, in_map, Hi.
        -- cbn [map]. rewrite <- E. apply list_elem_of_In. now left.
Qed.

(** **** The whole run *)

Lemma run_script_refused k st :
  mkdir_refused env OUT = Some k ->
  run_script env st
  = (1, emit (ConsoleError Failed) (mkdir_failed env k st)).
Proof.
  intros Hk. unfold run_script, main, bind, ensureDir, fs_mkdir_recursive.
  rewrite Hk. reflexivity.
Qed.

Lemma run_script_missing st :
  mkdir_refused env OUT = None ->
  SRC ∉ dirs st ->
  run_script env st
  = (0, emit (ConsoleLog (MissingSource SRC)) (checked env st)).
Proof.
  intros Hmk H. unfold run_script, main, bind, ensureDir,
    fs_mkdir_recursive, succeeds, fs_access. rewrite Hmk.
  change (emit (Mkdir OUT) _) with (after_mkdir env st).
  destruct (decide (SRC ∈ dirs (after_mkdir env st))) as [Hin | Hout].
  - exact (False_ind _ (H (proj1 (source_after_mkdir st) Hin))).
  - reflexivity.
Qed.

Lemma run_script_unlisted st :
  mkdir_refused env OUT = None ->
  SRC ∈ dirs st ->
  readdir_ok env SRC = false ->
  run_script env st = (1, emit (ConsoleError Failed) (listed env st)).
Proof.
  intros Hmk H Hrd. unfold run_script, main, bind, ensureDir,
    fs_mkdir_recursive, succeeds, fs_access. rewrite Hmk.
  change (emit (Mkdir OUT) _) with (after_mkdir env st).
  destruct (decide (SRC ∈ dirs (after_mkdir env st))) as [Hin | Hout].
  - cbn [negb]. unfold listFiles, bind, fs_readdir. rewrite Hrd.
    reflexivity.
  - exact (False_ind _ (Hout (proj2 (source_after_mkdir st) H))).
Qed.

Lemma run_script_found st :
  mkdir_refused env OUT = None ->
  SRC ∈ dirs st ->
  readdir_ok env SRC = true ->
  run_script env st =
  match inputs_of env with
  | [] => (0, emit (ConsoleLog NothingToDo) (listed env st))
  | _ :: _ =>
      match build_all env (inputs_of env) [] (listed env st) with
      | (Ok results, st') =>
          (0, emit (ConsoleLog (Generated (List.length results))) st')
      | (Throw _, st') => (1, emit (ConsoleError Failed) st')
      end
  end.
Proof.
  intros Hmk H Hrd. unfold run_script, main, bind, ensureDir,
    fs_mkdir_recursive, succeeds, fs_access. rewrite Hmk.
  change (emit (Mkdir OUT) _) with (after_mkdir env st).
  destruct (decide (SRC ∈ dirs (after_mkdir env st))) as [Hin | Hout].
  - cbn [negb]. unfold listFiles, bind, fs_readdir, ret. rewrite Hrd.
    change (emit (Readdir SRC) _) with (listed env st).
    change (map _ (List.filter isFile (entries env SRC))) with (inputs_of env).
    destruct (inputs_of env) as [| i l] eqn:E; [reflexivity |].
    cbn [List.length Nat.eqb].
    destruct (build_all env (i :: l) [] (listed env st)) as [[r | e] st'];
      reflexivity.
  - exact (False_ind _ (Hout (proj2 (source_after_mkdir st) H))).
Qed.

End ScriptFacts.

(** **** File names *)

Section FileNames.

Import OgScript.

Local Open Scope string_scope.

Lemma before_last_dot_none s : has_dot s = false -> before_last_dot s = None.
Proof.
  induction s as [| c s IH]; cbn; [reflexivity |].
  intros H. apply orb_false_iff in H as [Hc Hs]. now rewrite (IH Hs), Hc.
Qed.

Lemma before_last_dot_some stem ext :
  has_dot ext = false -> before_last_dot (stem ++ "." ++ ext) = Some stem.
Proof.
  intros H. induction stem as [| c stem IH].
  - change (EmptyString ++ "." ++ ext) with (String "." ext). cbn.
    now rewrite (before_last_dot_none _ H).
  - change (String c stem ++ "." ++ ext) with (String c (stem ++ "." ++ ext)).
    cbn [before_last_dot]. now rewrite IH.
Qed.

(** A name with a dot splits at its last dot. *)
Lemma has_dot_split s :
  has_dot s = true ->
  exists stem ext, s = stem ++ "." ++ ext /\ has_dot ext = false.
Proof.
  induction s as [| c s IH]; cbn; [discriminate |].
  destruct (has_dot s) eqn:Hs.
  - intros _. destruct (IH eq_refl) as (stem & ext & -> & Hext).
    exists (String c stem), ext. split; [reflexivity | exact Hext].
  - rewrite orb_false_r. intros Hc. apply Ascii.eqb_eq in Hc as ->.
    exists EmptyString, s. split; [reflexivity | exact Hs].
Qed.

Lemma parse_name_last (dir : path) n :
  parse_name (dir ++ [n])%list = parse_name [n].
Proof. unfold parse_name. now rewrite last_last. Qed.

(** [path.parse(file).name] is the name with its extension stripped. *)
Lemma parse_name_stem (dir : path) n stem :
  StemOf n stem -> parse_name (dir ++ [n])%list = stem.
Proof.
  intros H. rewrite parse_name_last. unfold parse_name.
  change (List.last [n] EmptyString) with n.
  destruct H as [c stem ext Hext Hne | c rest Hrest | |];
    try reflexivity.
  - apply String.eqb_neq in Hne. rewrite Hne.
    now rewrite (before_last_dot_some _ _ Hext).
  - destruct (String.eqb_spec (String c rest) "..") as [E | _].
    + injection E as _ ->. discriminate.
    + now rewrite (before_last_dot_none _ Hrest).
Qed.

(** Every name has a stem. *)
Lemma StemOf_total n : StemOf n (parse_name [n]).
Proof.
  destruct n as [| c rest]; [exact StemOf_empty |].
  destruct (String.eqb_spec (String c rest) "..") as [E | Hne];
    [rewrite E; exact StemOf_dotdot |].
  destruct (has_dot rest) eqn:Hd.
  - destruct (has_dot_split _ Hd) as (stem & ext & -> & Hext).
    rewrite <- (parse_name_last []), (parse_name_stem [] _ (String c stem));
      now apply StemOf_ext.
  - rewrite <- (parse_name_last []), (parse_name_stem [] _ (String c rest));
      now apply StemOf_hidden.
Qed.

Lemma outName_stem (dir : path) n stem :
  StemOf n stem -> outNameFromInput (dir ++ [n])%list = stem ++ ".webp".
Proof.
  intros H. unfold outNameFromInput. now rewrite (parse_name_stem _ _ _ H).
Qed.

(** The example of the comment in the script. *)
Example outName_png :
  outNameFromInput ["src"; "og"; "gds3710-nx-witness.png"]
  = "gds3710-nx-witness.webp".
Proof. reflexivity. Qed.

Example outName_two_dots :
  outNameFromInput ["src"; "og"; "cover.final.jpeg"] = "cover.final.webp".
Proof. reflexivity. Qed.

Example outName_hidden :
  outNameFromInput ["src"; "og"; ".DS_Store"] = ".DS_Store.webp".
Proof. reflexivity. Qed.

End FileNames.

Section ScriptNames.

Variable env : OgScript.Env.

Lemma inputs_of_entries e :
  In e (OgScript.entries env (OgScript.OG_SOURCE_DIR env)) ->
  OgScript.isFile e = true ->
  In (OgScript.path_join (OgScript.OG_SOURCE_DIR env) [OgScript.name e])
     (inputs_of env).
Proof.
  intros He Hf. unfold inputs_of. apply in_map_iff. exists e.
  split; [reflexivity |]. apply filter_In. auto.
Qed.

Lemma out_path_stem e stem :
  StemOf (OgScript.name e) stem ->
  out_path env
    (OgScript.path_join (OgScript.OG_SOURCE_DIR env) [OgScript.name e])
  = OgScript.path_join (OgScript.OG_OUTPUT_DIR env)
      [(stem ++ ".webp")%string].
Proof.
  intros Hs. unfold out_path, OgScript.path_join.
  now rewrite (outName_stem _ _ _ Hs).
Qed.

End ScriptNames.

Section ScriptShape.

Variable env : OgScript.Env.

(** The first rejected input of a list is determined by the list. *)
Lemma first_rejected_unique {A} (ok : A -> bool) pre x post pre' x' post' :
  (pre ++ x :: post)%list = (pre' ++ x' :: post')%list ->
  forallb ok pre = true -> ok x = false ->
  forallb ok pre' = true -> ok x' = false ->
  pre' = pre /\ x' = x.
Proof.
  revert pre'.
  induction pre as [| a pre IH]; intros [| a' pre'] E Hp Hx Hp' Hx'.
  - now injection E as ->.
  - injection E as -> _. cbn in Hp'. rewrite Hx in Hp'. discriminate.
  - injection E as -> _. cbn in Hp. rewrite Hx' in Hp. discriminate.
  - injection E as -> E. cbn in Hp, Hp'.
    apply andb_true_iff in Hp as [_ Hp]. apply andb_true_iff in Hp' as [_ Hp'].
    destruct (IH pre' E Hp Hx Hp' Hx') as [-> ->]. auto.
Qed.

Lemma run_script_encoding st :
  OgScript.mkdir_refused env (OgScript.OG_OUTPUT_DIR env) = None ->
  OgScript.OG_SOURCE_DIR env ∈ OgScript.dirs st ->
  OgScript.readdir_ok env (OgScript.OG_SOURCE_DIR env) = true ->
  inputs_of env <> [] ->
  OgScript.run_script env st =
  match OgScript.build_all env (inputs_of env) [] (listed env st) with
  | (OgScript.Ok results, st') =>
      (0, OgScript.emit
            (OgScript.ConsoleLog (OgScript.Generated (List.length results)))
            st')
  | (OgScript.Throw _, st') =>
      (1, OgScript.emit (OgScript.ConsoleError OgScript.Failed) st')
  end.
Proof.
  intros Hmk Hsrc Hrd Hne. rewrite (run_script_found env st Hmk Hsrc Hrd).
  destruct (inputs_of env); [contradiction | reflexivity].
Qed.

(** The ways a run can go, by what the environment answers. *)
Lemma run_script_paths st :
  (exists k,
     OgScript.mkdir_refused env (OgScript.OG_OUTPUT_DIR env) = Some k
     /\ OgScript.run_script env st
        = (1, OgScript.emit (OgScript.ConsoleError OgScript.Failed)
                (mkdir_failed env k st)))
  \/ (OgScript.mkdir_refused env (OgScript.OG_OUTPUT_DIR env) = None
      /\ exists l code tail,
           OgScript.run_script env st
           = (code,
              OgScript.emit tail (built_all env l (checked env st)))
           \/ OgScript.run_script env st
              = (code,
                 OgScript.emit tail
                   (built_all env l (listed env st)))
           \/ exists x,
                OgScript.run_script env st
                = (code,
                   OgScript.emit tail
                     (OgScript.emit
                        (OgScript.ToFile x (out_path env x))
                        (built_all env l (listed env st))))).
Proof.
  destruct (OgScript.mkdir_refused env (OgScript.OG_OUTPUT_DIR env))
    as [k |] eqn:Hmk.
  - left. exists k. split; [reflexivity |]. now apply run_script_refused.
  - right. split; [reflexivity |].
    destruct (decide (OgScript.OG_SOURCE_DIR env ∈ OgScript.dirs st))
      as [Hsrc | Hmiss].
    + destruct (OgScript.readdir_ok env (OgScript.OG_SOURCE_DIR env))
        eqn:Hrd.
      * rewrite (run_script_found env st Hmk Hsrc Hrd).
        destruct (inputs_of env) as [| i0 l0] eqn:E.
        -- exists [], 0, (OgScript.ConsoleLog OgScript.NothingToDo).
           right. left. reflexivity.
        -- rewrite <- E.
           destruct (build_all_cases env (inputs_of env) [] (listed env st))
             as [[_ Hb] | (pre & x & post & _ & _ & _ & Hb)]; rewrite Hb.
           ++ eexists _, 0, _. right. left. reflexivity.
           ++ eexists pre, 1, _. right. right. exists x. reflexivity.
      * rewrite (run_script_unlisted env st Hmk Hsrc Hrd).
        exists [], 1, (OgScript.ConsoleError OgScript.Failed).
        right. left. reflexivity.
    + rewrite (run_script_missing env st Hmk Hmiss).
      eexists [], 0, _. left. reflexivity.
Qed.

(** Whatever happens, the run starts by the [mkdir] of the output
    directory and makes no directory outside the chain that leads to it;
    when the [mkdir] succeeds the check of the source directory comes next
    and the whole chain exists at the end. *)
Lemma run_script_shape st :
  (exists rest,
     OgScript.trace (snd (OgScript.run_script env st))
     = (OgScript.trace st
        ++ OgScript.Mkdir (OgScript.OG_OUTPUT_DIR env) :: rest)%list)
  /\ (exists k,
        OgScript.dirs (snd (OgScript.run_script env st))
        = OgScript.dirs st
          ∪ list_to_set
              (List.firstn k
                 (OgScript.ancestors (OgScript.OG_OUTPUT_DIR env))))
  /\ (OgScript.mkdir_refused env (OgScript.OG_OUTPUT_DIR env) = None ->
      (exists rest,
         OgScript.trace (snd (OgScript.run_script env st))
         = (OgScript.trace st
            ++ OgScript.Mkdir (OgScript.OG_OUTPUT_DIR env)
               :: OgScript.Access (OgScript.OG_SOURCE_DIR env) :: rest)%list)
      /\ OgScript.dirs (snd (OgScript.run_script env st))
         = OgScript.dirs st
           ∪ list_to_set
               (OgScript.ancestors (OgScript.OG_OUTPUT_DIR env))).
Proof.
  destruct (run_script_paths st)
    as [(k & Hmk & Hrun)
       | (Hmk & l & code & tail & [Hrun | [Hrun | (x & Hrun)]])];
    rewrite Hrun;
    cbn [snd OgScript.trace OgScript.dirs OgScript.emit mkdir_failed];
    rewrite ?built_all_trace, ?built_all_dirs;
    cbn [OgScript.trace OgScript.dirs OgScript.emit listed checked
         after_mkdir].
  - split; [eexists; now rewrite <- !app_assoc |].
    split; [now exists k |]. intros H. congruence.
  - split; [eexists; now rewrite <- !app_assoc |].
    split; [| split; [eexists; now rewrite <- !app_assoc | reflexivity]].
    exists (List.length (OgScript.ancestors (OgScript.OG_OUTPUT_DIR env))).
    now rewrite firstn_all.
  - split; [eexists; now rewrite <- !app_assoc |].
    split; [| split; [eexists; now rewrite <- !app_assoc | reflexivity]].
    exists (List.length (OgScript.ancestors (OgScript.OG_OUTPUT_DIR env))).
    now rewrite firstn_all.
  - split; [eexists; now rewrite <- !app_assoc |].
    split; [| split; [eexists; now rewrite <- !app_assoc | reflexivity]].
    exists (List.length (OgScript.ancestors (OgScript.OG_OUTPUT_DIR env))).
    now rewrite firstn_all.
Qed.

End ScriptShape.

(** **** Stated properties of the script *)

(** C8, as amended: on a run that exits with status 0 over an existing
    source directory, every regular file of the directory has, in the output
    directory, the file named by its stem followed by [.webp], holding a
    1200x630 image, fitted by [cover] around the centre and encoded as WebP at
    quality 82, made from a source file of that stem: from the file itself
    when no file listed after it has the same output name, so that files
    with distinct stems get one output each while files that share a stem
    share one. No other path is written. A source directory holding only
    [a.png] gives exit status 0 and exactly the output [a.webp], provided
    the output directory can be made, the source directory can be listed
    and the encoder accepts the file. *)
Theorem og_one_output_per_stem (env : OgScript.Env) (st : OgScript.FS) :
  OgScript.OG_SOURCE_DIR env ∈ OgScript.dirs st ->
  (forall st', OgScript.run_script env st = (0, st') ->
     (forall e stem,
        In e (OgScript.entries env (OgScript.OG_SOURCE_DIR env)) ->
        OgScript.isFile e = true ->
        StemOf (OgScript.name e) stem ->
        exists img,
          OgScript.files st'
            !! OgScript.path_join (OgScript.OG_OUTPUT_DIR env)
                 [(stem ++ ".webp")%string] = Some img
          /\ OgScript.width img = 1200 /\ OgScript.height img = 630
          /\ OgScript.fit img = OgScript.cover
          /\ OgScript.position img = OgScript.centre
          /\ OgScript.format img = OgScript.webp
          /\ OgScript.quality img = 82
          /\ In (OgScript.source img) (inputs_of env)
          /\ out_path env (OgScript.source img)
             = OgScript.path_join (OgScript.OG_OUTPUT_DIR env)
                 [(stem ++ ".webp")%string])
     /\ (forall pre j post,
           inputs_of env = (pre ++ j :: post)%list ->
           (forall i, In i post -> out_path env i <> out_path env j) ->
           OgScript.files st' !! out_path env j = Some (og_image j))
     /\ (forall p,
           OgScript.files st' !! p <> OgScript.files st !! p ->
           exists e stem,
             In e (OgScript.entries env (OgScript.OG_SOURCE_DIR env))
             /\ OgScript.isFile e = true
             /\ StemOf (OgScript.name e) stem
             /\ p = OgScript.path_join (OgScript.OG_OUTPUT_DIR env)
                      [(stem ++ ".webp")%string]))
  /\ (OgScript.entries env (OgScript.OG_SOURCE_DIR env) = [a_png] ->
      OgScript.mkdir_refused env (OgScript.OG_OUTPUT_DIR env) = None ->
      OgScript.readdir_ok env (OgScript.OG_SOURCE_DIR env) = true ->
      OgScript.sharp_ok env
        (OgScript.path_join (OgScript.OG_SOURCE_DIR env) ["a.png"%string])
        = true ->
      exists st',
        OgScript.run_script env st = (0, st')
        /\ OgScript.files st'
           = <[OgScript.path_join (OgScript.OG_OUTPUT_DIR env)
                 ["a.webp"%string]
               := og_image (OgScript.path_join (OgScript.OG_SOURCE_DIR env)
                              ["a.png"%string])]> (OgScript.files st)).
Proof.
  intros Hsrc. split.
  - intros st' Hrun.
    destruct (OgScript.mkdir_refused env (OgScript.OG_OUTPUT_DIR env))
      as [k |] eqn:Hmk;
      [rewrite (run_script_refused env k st Hmk) in Hrun; discriminate |].
    destruct (OgScript.readdir_ok env (OgScript.OG_SOURCE_DIR env)) eqn:Hrd;
      [| rewrite (run_script_unlisted env st Hmk Hsrc Hrd) in Hrun;
         discriminate].
    rewrite (run_script_found env st Hmk Hsrc Hrd) in Hrun.
    pose proof (inputs_of_entries env) as Hin.
    pose proof (out_path_stem env) as Hout.
    destruct (inputs_of env) as [| i0 l0] eqn:Einputs.
    + injection Hrun as <-. split; [| split].
      * intros e stem He Hf _. destruct (Hin e He Hf).
      * intros pre j post E. now destruct pre.
      * intros p Hp. now destruct Hp.
    + rewrite <- Einputs in *.
      destruct (build_all_cases env (inputs_of env) [] (listed env st))
        as [[Hall Hb] | (pre & x & post & _ & _ & _ & Hb)];
        rewrite Hb in Hrun; [| discriminate].
      injection Hrun as <-. cbn [OgScript.files OgScript.emit].
      split; [| split].
      * intros e stem He Hf Hs.
        destruct (built_all_lookup env (inputs_of env) (listed env st) _
                    (Hin e He Hf)) as (j & Hj & Ej & Hl).
        rewrite (Hout e stem Hs) in Hl, Ej. exists (og_image j).
        split; [exact Hl |]. repeat split; assumption.
      * intros pre j post E Hpost. rewrite E.
        unfold built_all. rewrite fold_left_app. cbn [fold_left].
        fold (built_all env post
                (built env (fold_left (built env) pre (listed env st)) j)).
        rewrite built_all_frame.
        -- cbn [built OgScript.files OgScript.emit]. apply lookup_insert_eq.
        -- intros i Hi Ei. now apply (Hpost i Hi).
      * intros p Hp.
        destruct (decide (p ∈ map (out_path env) (inputs_of env)))
          as [Hp' | Hp'].
        -- apply list_elem_of_In, in_map_iff in Hp' as (i & <- & Hi).
           unfold inputs_of in Hi.
           apply in_map_iff in Hi as (e & <- & He).
           apply filter_In in He as [He Hf].
           exists e, (OgScript.parse_name [OgScript.name e]).
           split; [exact He |]. split; [exact Hf |].
           split; [apply StemOf_total |].
           apply Hout, StemOf_total.
        -- exfalso. apply Hp.
           rewrite built_all_frame; [reflexivity |].
           intros i Hi ->. apply Hp', list_elem_of_In, in_map, Hi.
  - intros Hents Hmk Hrd Hok. rewrite (run_script_found env st Hmk Hsrc Hrd).
    unfold inputs_of. rewrite Hents.
    cbn [List.filter OgScript.isFile a_png map OgScript.name].
    cbn [OgScript.build_all]. unfold OgScript.bind.
    rewrite (buildOne_ok env _ _ Hok).
    cbn [OgScript.build_all OgScript.ret]. eexists. split; [reflexivity |].
    cbn [OgScript.files OgScript.emit built].
    change ["a.png"%string] with [OgScript.name a_png].
    rewrite (out_path_stem env a_png "a"); [reflexivity |].
    apply (StemOf_ext "a" EmptyString "png"); [reflexivity | discriminate].
Qed.

Lemma og_one_output_per_stem_witness :
  (exists img,
     OgScript.files (snd (OgScript.run_script site with_source))
       !! ["site"; "public"; "images"; "og"; "a.webp"]%string = Some img
     /\ OgScript.width img = 1200 /\ OgScript.height img = 630
     /\ OgScript.fit img = OgScript.cover
     /\ OgScript.position img = OgScript.centre
     /\ OgScript.format img = OgScript.webp
     /\ OgScript.quality img = 82)
  /\ exists st',
    OgScript.run_script site with_source = (0, st')
    /\ OgScript.files st'
       = <[["site"; "public"; "images"; "og"; "a.webp"]%string
           := og_image ["site"; "src"; "og"; "a.png"]%string]> ∅.
Proof.
  assert (Hsrc : OgScript.OG_SOURCE_DIR site ∈ OgScript.dirs with_source)
    by (vm_compute; reflexivity).
  destruct (og_one_output_per_stem site with_source Hsrc) as [Hall Hone].
  split.
  - destruct (proj1 (Hall (snd (OgScript.run_script site with_source))
                       eq_refl) a_png "a"%string)
      as (img & Hl & Hw & Hh & Hf & Hp & Hfm & Hq & _).
    + left. reflexivity.
    + reflexivity.
    + apply (StemOf_ext "a" EmptyString "png"); [reflexivity | discriminate].
    + exists img. repeat split; assumption.
  - apply Hone; reflexivity.
Defined.

(** C8 as stated fails where two source files share a stem: the directory
    lists [a.jpg], [a.png] and [b.png], the encoder accepts all three and
    the run exits with status 0, yet it leaves two files, [a.webp] made from
    [a.png] and [b.webp]: no output is made from [a.jpg]. *)
Lemma og_same_stem_single_output :
  fst (OgScript.run_script same_stem with_source) = 0
  /\ inputs_of same_stem
     = [["site"; "src"; "og"; "a.jpg"]; ["site"; "src"; "og"; "a.png"];
        ["site"; "src"; "og"; "b.png"]]%string
  /\ OgScript.files (snd (OgScript.run_script same_stem with_source))
     = <[["site"; "public"; "images"; "og"; "a.webp"]%string
         := og_image ["site"; "src"; "og"; "a.png"]%string]>
         (<[["site"; "public"; "images"; "og"; "b.webp"]%string
            := og_image ["site"; "src"; "og"; "b.png"]%string]> ∅)
  /\ size (OgScript.files (snd (OgScript.run_script same_stem with_source)))
     = 2%nat
  /\ forall p,
       OgScript.files (snd (OgScript.run_script same_stem with_source)) !! p
       <> Some (og_image ["site"; "src"; "og"; "a.jpg"]%string).
Proof.
  assert (E : OgScript.files
                (snd (OgScript.run_script same_stem with_source))
              = <[["site"; "public"; "images"; "og"; "a.webp"]%string
                  := og_image ["site"; "src"; "og"; "a.png"]%string]>
                  (<[["site"; "public"; "images"; "og"; "b.webp"]%string
                     := og_image ["site"; "src"; "og"; "b.png"]%string]> ∅))
    by reflexivity.
  split; [reflexivity |]. split; [reflexivity |]. split; [exact E |].
  split; [reflexivity |].
  intros p. rewrite E.
  destruct (decide (["site"; "public"; "images"; "og"; "a.webp"]%string = p))
    as [<- | Ha].
  - rewrite lookup_insert_eq. intros H. discriminate H.
  - rewrite lookup_insert_ne by exact Ha.
    destruct (decide
                (["site"; "public"; "images"; "og"; "b.webp"]%string = p))
      as [<- | Hb].
    + rewrite lookup_insert_eq. intros H. discriminate H.
    + rewrite lookup_insert_ne by exact Hb. rewrite lookup_empty.
      discriminate.
Qed.

(** C9, as amended: when the output directory can be made and the source
    directory does not exist, or exists, can be listed and is empty, the
    run logs one line, writes no file and exits with status 0. When the
    encoder rejects a file, the run exits with status 1 right after that one
    attempt: the files listed after it are never handed to the encoder, the
    rejected file is not tried again, and the images written for the files
    before it stay where they are. When [mkdir] of the output directory or
    [readdir] of the source directory is refused, the run exits with status
    1 at that call, whatever the state of the source directory, and writes
    no file. *)
Theorem og_error_behaviour (env : OgScript.Env) (st : OgScript.FS) :
  (OgScript.mkdir_refused env (OgScript.OG_OUTPUT_DIR env) = None ->
   OgScript.OG_SOURCE_DIR env ∉ OgScript.dirs st ->
   exists st',
     OgScript.run_script env st = (0, st')
     /\ OgScript.files st' = OgScript.files st
     /\ OgScript.trace st'
        = (OgScript.trace st
           ++ [OgScript.Mkdir (OgScript.OG_OUTPUT_DIR env);
               OgScript.Access (OgScript.OG_SOURCE_DIR env);
               OgScript.ConsoleLog
                 (OgScript.MissingSource (OgScript.OG_SOURCE_DIR env))])%list)
  /\ (OgScript.mkdir_refused env (OgScript.OG_OUTPUT_DIR env) = None ->
      OgScript.OG_SOURCE_DIR env ∈ OgScript.dirs st ->
      OgScript.readdir_ok env (OgScript.OG_SOURCE_DIR env) = true ->
      OgScript.entries env (OgScript.OG_SOURCE_DIR env) = [] ->
      exists st',
        OgScript.run_script env st = (0, st')
        /\ OgScript.files st' = OgScript.files st
        /\ OgScript.trace st'
           = (OgScript.trace st
              ++ [OgScript.Mkdir (OgScript.OG_OUTPUT_DIR env);
                  OgScript.Access (OgScript.OG_SOURCE_DIR env);
                  OgScript.Readdir (OgScript.OG_SOURCE_DIR env);
                  OgScript.ConsoleLog OgScript.NothingToDo])%list)
  /\ (forall pre x post,
        OgScript.mkdir_refused env (OgScript.OG_OUTPUT_DIR env) = None ->
        OgScript.OG_SOURCE_DIR env ∈ OgScript.dirs st ->
        OgScript.readdir_ok env (OgScript.OG_SOURCE_DIR env) = true ->
        inputs_of env = (pre ++ x :: post)%list ->
        forallb (OgScript.sharp_ok env) pre = true ->
        OgScript.sharp_ok env x = false ->
        exists st',
          OgScript.run_script env st = (1, st')
          /\ OgScript.trace st'
             = (OgScript.trace st
                ++ [OgScript.Mkdir (OgScript.OG_OUTPUT_DIR env);
                    OgScript.Access (OgScript.OG_SOURCE_DIR env);
                    OgScript.Readdir (OgScript.OG_SOURCE_DIR env)]
                ++ map (fun i => OgScript.ToFile i (out_path env i)) pre
                ++ [OgScript.ToFile x (out_path env x);
                    OgScript.ConsoleError OgScript.Failed])%list
          /\ (forall i, In i pre ->
                exists j, In j pre
                  /\ OgScript.files st' !! out_path env i
                     = Some (og_image j))
          /\ (forall p, (forall i, In i pre -> p <> out_path env i) ->
                OgScript.files st' !! p = OgScript.files st !! p))
  /\ (forall k,
        OgScript.mkdir_refused env (OgScript.OG_OUTPUT_DIR env) = Some k ->
        exists st',
          OgScript.run_script env st = (1, st')
          /\ OgScript.files st' = OgScript.files st
          /\ OgScript.trace st'
             = (OgScript.trace st
                ++ [OgScript.Mkdir (OgScript.OG_OUTPUT_DIR env);
                    OgScript.ConsoleError OgScript.Failed])%list)
  /\ (OgScript.mkdir_refused env (OgScript.OG_OUTPUT_DIR env) = None ->
      OgScript.OG_SOURCE_DIR env ∈ OgScript.dirs st ->
      OgScript.readdir_ok env (OgScript.OG_SOURCE_DIR env) = false ->
      exists st',
        OgScript.run_script env st = (1, st')
        /\ OgScript.files st' = OgScript.files st
        /\ OgScript.trace st'
           = (OgScript.trace st
              ++ [OgScript.Mkdir (OgScript.OG_OUTPUT_DIR env);
                  OgScript.Access (OgScript.OG_SOURCE_DIR env);
                  OgScript.Readdir (OgScript.OG_SOURCE_DIR env);
                  OgScript.ConsoleError OgScript.Failed])%list).
Proof.
  split; [| split; [| split; [| split]]].
  - intros Hmk Hmiss. rewrite (run_script_missing env st Hmk Hmiss).
    eexists. split; [reflexivity |]. split; [reflexivity |].
    cbn. now rewrite <- !app_assoc.
  - intros Hmk Hsrc Hrd Hents. rewrite (run_script_found env st Hmk Hsrc Hrd).
    unfold inputs_of. rewrite Hents. cbn [List.filter map].
    eexists. split; [reflexivity |]. split; [reflexivity |].
    cbn. now rewrite <- !app_assoc.
  - intros pre x post Hmk Hsrc Hrd Hinputs Hpre Hx.
    destruct (build_all_cases env (inputs_of env) [] (listed env st))
      as [[Hall _] | (pre' & x' & post' & Hsplit & Hpre' & Hx' & Hb)].
    + rewrite Hinputs, forallb_app in Hall. cbn in Hall.
      rewrite Hx, andb_false_r in Hall. discriminate.
    + assert (E : pre' = pre /\ x' = x).
      { rewrite Hinputs in Hsplit.
        apply (first_rejected_unique (OgScript.sharp_ok env)
                 pre x post pre' x' post'); assumption. }
      destruct E as [-> ->].
      rewrite (run_script_encoding env st Hmk Hsrc Hrd), Hb
        by (rewrite Hinputs; now destruct pre).
      eexists. split; [reflexivity |].
      cbn [OgScript.trace OgScript.files OgScript.emit].
      rewrite built_all_trace. split; [| split].
      * cbn. rewrite <- !app_assoc. reflexivity.
      * intros i Hi.
        destruct (built_all_lookup env pre (listed env st) i Hi)
          as (j & Hj & _ & Hl). exists j. auto.
      * intros p Hp. now rewrite built_all_frame.
  - intros k Hk. rewrite (run_script_refused env k st Hk).
    eexists. split; [reflexivity |]. split; [reflexivity |].
    cbn. now rewrite <- !app_assoc.
  - intros Hmk Hsrc Hrd. rewrite (run_script_unlisted env st Hmk Hsrc Hrd).
    eexists. split; [reflexivity |]. split; [reflexivity |].
    cbn. now rewrite <- !app_assoc.
Qed.

Lemma og_error_behaviour_witness :
  (exists st',
     OgScript.run_script site without_source = (0, st')
     /\ OgScript.files st' = ∅)
  /\ (exists st',
        OgScript.run_script three_images with_source = (1, st')
        /\ OgScript.trace st'
           = [OgScript.Mkdir ["site"; "public"; "images"; "og"]%string;
              OgScript.Access ["site"; "src"; "og"]%string;
              OgScript.Readdir ["site"; "src"; "og"]%string;
              OgScript.ToFile ["site"; "src"; "og"; "a.png"]%string
                ["site"; "public"; "images"; "og"; "a.webp"]%string;
              OgScript.ToFile ["site"; "src"; "og"; "b.png"]%string
                ["site"; "public"; "images"; "og"; "b.webp"]%string;
              OgScript.ConsoleError OgScript.Failed])
  /\ (exists st',
        OgScript.run_script blocked with_source = (1, st')
        /\ OgScript.files st' = ∅)
  /\ (exists st',
        OgScript.run_script source_is_a_file with_source = (1, st')
        /\ OgScript.files st' = ∅).
Proof.
  split; [| split; [| split]].
  - destruct (proj1 (og_error_behaviour site without_source))
      as (st' & Hrun & Hfiles & _).
    + reflexivity.
    + vm_compute. intros H. discriminate H.
    + exists st'. split; [exact Hrun | exact Hfiles].
  - destruct (proj1 (proj2 (proj2 (og_error_behaviour three_images
                                     with_source)))
                [["site"; "src"; "og"; "a.png"]%string]
                ["site"; "src"; "og"; "b.png"]%string
                [["site"; "src"; "og"; "c.png"]%string])
      as (st' & Hrun & Htrace & _).
    + reflexivity.
    + vm_compute. reflexivity.
    + reflexivity.
    + reflexivity.
    + reflexivity.
    + reflexivity.
    + exists st'. split; [exact Hrun | exact Htrace].
  - destruct (proj1 (proj2 (proj2 (proj2 (og_error_behaviour blocked
                                            with_source)))) 0%nat)
      as (st' & Hrun & Hfiles & _).
    + reflexivity.
    + exists st'. split; [exact Hrun | exact Hfiles].
  - destruct (proj2 (proj2 (proj2 (proj2 (og_error_behaviour
                                            source_is_a_file with_source)))))
      as (st' & Hrun & Hfiles & _).
    + reflexivity.
    + vm_compute. reflexivity.
    + reflexivity.
    + exists st'. split; [exact Hrun | exact Hfiles].
Defined.

(** C9 as stated fails when the output directory cannot be made: with
    [public] a regular file and no source directory, the run exits with
    status 1, not 0, and logs nothing to the standard output. *)
Lemma og_missing_source_exit_1 :
  (OgScript.OG_SOURCE_DIR blocked ∉ OgScript.dirs without_source)
  /\ fst (OgScript.run_script blocked without_source) = 1
  /\ OgScript.trace (snd (OgScript.run_script blocked without_source))
     = [OgScript.Mkdir ["site"; "public"; "images"; "og"]%string;
        OgScript.ConsoleError OgScript.Failed].
Proof.
  split; [| split; reflexivity].
  vm_compute. intros H. discriminate H.
Qed.

(** C10, as amended: on every run the first effect is the recursive
    [mkdir] of the output directory, before the source directory is
    checked. When that [mkdir] succeeds, the check of the source directory
    comes right after it and the output directory, with the directories
    above it, exists when the run ends; in particular, when the source
    directory is missing and the run exits with status 0, no file is written
    and the output directory is left behind. When the [mkdir] is refused the
    run stops there with status 1 and the source directory is never
    checked. *)
Theorem og_output_dir_first (env : OgScript.Env) (st : OgScript.FS) :
  (exists rest,
     OgScript.trace (snd (OgScript.run_script env st))
     = (OgScript.trace st
        ++ OgScript.Mkdir (OgScript.OG_OUTPUT_DIR env) :: rest)%list)
  /\ (OgScript.mkdir_refused env (OgScript.OG_OUTPUT_DIR env) = None ->
      (exists rest,
         OgScript.trace (snd (OgScript.run_script env st))
         = (OgScript.trace st
            ++ OgScript.Mkdir (OgScript.OG_OUTPUT_DIR env)
               :: OgScript.Access (OgScript.OG_SOURCE_DIR env)
               :: rest)%list)
      /\ forall d : OgScript.path,
           d `prefix_of` OgScript.OG_OUTPUT_DIR env ->
           d ∈ OgScript.dirs (snd (OgScript.run_script env st)))
  /\ (OgScript.OG_SOURCE_DIR env ∉ OgScript.dirs st ->
      fst (OgScript.run_script env st) = 0 ->
      OgScript.files (snd (OgScript.run_script env st)) = OgScript.files st
      /\ OgScript.dirs (snd (OgScript.run_script env st))
         = OgScript.dirs st
           ∪ list_to_set (OgScript.ancestors (OgScript.OG_OUTPUT_DIR env))
      /\ OgScript.OG_OUTPUT_DIR env
         ∈ OgScript.dirs (snd (OgScript.run_script env st)))
  /\ (forall k,
        OgScript.mkdir_refused env (OgScript.OG_OUTPUT_DIR env) = Some k ->
        fst (OgScript.run_script env st) = 1
        /\ OgScript.trace (snd (OgScript.run_script env st))
           = (OgScript.trace st
              ++ [OgScript.Mkdir (OgScript.OG_OUTPUT_DIR env);
                  OgScript.ConsoleError OgScript.Failed])%list).
Proof.
  pose proof (run_script_shape env st) as (Hfirst & _ & Hmade).
  split; [exact Hfirst |]. split; [| split].
  - intros Hmk. destruct (Hmade Hmk) as [Htrace Hdirs].
    split; [exact Htrace |]. intros d Hd. rewrite Hdirs.
    apply elem_of_union_r, elem_of_list_to_set, elem_of_ancestors, Hd.
  - intros Hmiss Hexit.
    destruct (OgScript.mkdir_refused env (OgScript.OG_OUTPUT_DIR env))
      as [k |] eqn:Hmk;
      [rewrite (run_script_refused env k st Hmk) in Hexit; discriminate |].
    rewrite (run_script_missing env st Hmk Hmiss).
    split; [reflexivity |]. split; [reflexivity |]. apply output_dir_made.
  - intros k Hk. rewrite (run_script_refused env k st Hk).
    split; [reflexivity |]. cbn. now rewrite <- !app_assoc.
Qed.

Lemma og_output_dir_first_witness :
  OgScript.files (snd (OgScript.run_script site without_source)) = ∅
  /\ ["site"; "public"; "images"; "og"]%string
     ∈ OgScript.dirs (snd (OgScript.run_script site without_source))
  /\ ["site"; "public"]%string
     ∈ OgScript.dirs (snd (OgScript.run_script site with_source)).
Proof.
  destruct (og_output_dir_first site without_source)
    as (_ & _ & Hmissing & _).
  destruct (og_output_dir_first site with_source) as (_ & Hmade & _).
  destruct Hmissing as (Hfiles & _ & Hdir).
  - vm_compute. intros H. discriminate H.
  - reflexivity.
  - split; [exact Hfiles |]. split; [exact Hdir |].
    apply (proj2 (Hmade eq_refl)).
    exists ["images"; "og"]%string. reflexivity.
Defined.

(** C10 as stated fails when the output directory cannot be made: with
    [public] a regular file, the run ends with status 1, the source
    directory has not been checked and there is no output directory. *)
Lemma og_output_dir_not_made :
  fst (OgScript.run_script blocked without_source) = 1
  /\ (OgScript.OG_OUTPUT_DIR blocked
      ∉ OgScript.dirs (snd (OgScript.run_script blocked without_source)))
  /\ ~ In (OgScript.Access (OgScript.OG_SOURCE_DIR blocked))
         (OgScript.trace (snd (OgScript.run_script blocked without_source))).
Proof.
  split; [reflexivity |]. split.
  - vm_compute. intros H. discriminate H.
  - intros [H | [H | []]]; discriminate H.
Qed.

(* ===================================================================== *)
(** ** Carousel: further properties *)
(* ===================================================================== *)

Section CarouselMore.

Import Carousel.

Variable certificates : list Certificate.

Local Abbreviation N := (total certificates).

Lemma set_activeIndex_same st :
  set_activeIndex (fun _ => activeIndex st) st = st.
Proof. destruct st; reflexivity. Qed.

(** [k] presses of the next button, as one update of the index. *)
Lemma run_next_buttons k : forall st,
  1 <= N -> 0 <= activeIndex st < N ->
  run certificates (repeat NextButton k) st
  = set_activeIndex (fun _ => (activeIndex st + Z.of_nat k) mod N) st.
Proof.
  induction k as [| k IH]; intros st HN Hi.
  - cbn [repeat run fold_left]. rewrite Z.add_0_r, Z.mod_small by lia.
    now rewrite set_activeIndex_same.
  - cbn [repeat run fold_left handle].
    change (fold_left _ (repeat NextButton k) ?s)
      with (run certificates (repeat NextButton k) s).
    rewrite IH by (try apply next_in_range; assumption).
    rewrite next_index, js_rem_is_mod by lia.
    rewrite Zplus_mod_idemp_l.
    replace (activeIndex st + 1 + Z.of_nat k)
      with (activeIndex st + Z.of_nat (S k)) by lia.
    destruct st; reflexivity.
Qed.

Lemma run_prev_buttons k : forall st,
  1 <= N -> 0 <= activeIndex st < N ->
  run certificates (repeat PrevButton k) st
  = set_activeIndex (fun _ => (activeIndex st - Z.of_nat k) mod N) st.
Proof.
  induction k as [| k IH]; intros st HN Hi.
  - cbn [repeat run fold_left]. rewrite Z.sub_0_r, Z.mod_small by lia.
    now rewrite set_activeIndex_same.
  - cbn [repeat run fold_left handle].
    change (fold_left _ (repeat PrevButton k) ?s)
      with (run certificates (repeat PrevButton k) s).
    rewrite IH by (try apply prev_in_range; assumption).
    rewrite prev_index, js_rem_is_mod by lia.
    rewrite Zminus_mod_idemp_l.
    replace (activeIndex st - 1 + N - Z.of_nat k)
      with (activeIndex st - Z.of_nat (S k) + 1 * N) by lia.
    rewrite Z.mod_add by lia.
    destruct st; reflexivity.
Qed.

(** The normalised distance is the one representative of [index -
    activeIndex] that is nearer to [0] than half the list. *)
Lemma normalizedDiff_unique a i d k :
  1 <= N -> 0 <= a < N -> 0 <= i < N ->
  2 * Z.abs d < N -> i - a = d + k * N ->
  normalizedDiff certificates a i = d.
Proof.
  intros HN Ha Hi Hd Hk.
  assert (Hk3 : k = -1 \/ k = 0 \/ k = 1) by nia.
  rewrite normalizedDiff_Z. cbv zeta. rewrite Hk.
  destruct Hk3 as [-> | [-> | ->]].
  - destruct (Z.ltb_spec N (2 * (d + -1 * N))); [lia |].
    destruct (Z.ltb_spec (2 * (d + -1 * N)) (- N)); lia.
  - destruct (Z.ltb_spec N (2 * (d + 0 * N))); [lia |].
    destruct (Z.ltb_spec (2 * (d + 0 * N)) (- N)); lia.
  - destruct (Z.ltb_spec N (2 * (d + 1 * N))); [| lia].
    destruct (Z.ltb_spec (2 * (d + 1 * N - N)) (- N)); lia.
Qed.

(** The card [d] places further along the circle. *)
Lemma normalizedDiff_offset a d :
  1 <= N -> 0 <= a < N -> 2 * Z.abs d < N ->
  normalizedDiff certificates a ((a + d) mod N) = d.
Proof.
  intros HN Ha Hd.
  apply (normalizedDiff_unique a _ d (- ((a + d) / N))); try assumption.
  - apply Z.mod_pos_bound. lia.
  - rewrite Z.mod_eq; [ring | lia].
Qed.

Lemma normalizedDiff_zero a i :
  1 <= N -> 0 <= a < N -> 0 <= i < N ->
  normalizedDiff certificates a i = 0 <-> i = a.
Proof.
  intros HN Ha Hi. split.
  - intros H0. destruct (normalizedDiff_congruent certificates a i) as [k Hk].
    rewrite H0 in Hk.
    assert (k * N <= - N \/ k = 0 \/ N <= k * N) as [? | [-> | ?]] by nia; lia.
  - intros ->. apply normalizedDiff_self.
Qed.

(** Every handler keeps the drag bookkeeping coherent. *)
Lemma handle_drag_coherent ev st :
  drag_coherent st -> drag_coherent (handle certificates ev st).
Proof.
  unfold drag_coherent. destruct st as [i ts te dr ds]. cbn. intros H.
  destruct ev; cbn [handle]; try exact H.
  - unfold onTouchEnd. cbn.
    destruct (falsy ts || falsy te); [exact H |].
    destruct ts, te; try exact H.
    destruct (_ <? _); [exact H |]. destruct (_ <? _); exact H.
  - cbn. split; [discriminate | reflexivity].
  - unfold onMouseUp. cbn. destruct dr; [| exact H].
    destruct ds; [| exact H]. cbn. split; [discriminate | congruence].
  - cbn. split; [discriminate | congruence].
  - unfold onCardClick. cbn. destruct (negb dr); exact H.
Qed.

End CarouselMore.

(** X1: on a non-empty list, from an index in range, [k] presses of the
    next button lead to index [(i + k) mod N] and [k] presses of the
    previous button to [(i - k) mod N]; as many presses as there are
    certificates, in either direction, give back the starting state. *)
Theorem carousel_repeated_steps (certificates : list Carousel.Certificate)
    (st : Carousel.State) (k : nat) :
  1 <= Carousel.total certificates ->
  0 <= Carousel.activeIndex st < Carousel.total certificates ->
  Carousel.activeIndex
    (Carousel.run certificates (repeat Carousel.NextButton k) st)
  = (Carousel.activeIndex st + Z.of_nat k) mod Carousel.total certificates
  /\ Carousel.activeIndex
       (Carousel.run certificates (repeat Carousel.PrevButton k) st)
     = (Carousel.activeIndex st - Z.of_nat k)
         mod Carousel.total certificates
  /\ Carousel.run certificates
       (repeat Carousel.NextButton (List.length certificates)) st = st
  /\ Carousel.run certificates
       (repeat Carousel.PrevButton (List.length certificates)) st = st.
Proof.
  intros HN Hi. rewrite !run_next_buttons, !run_prev_buttons by assumption.
  split; [reflexivity |]. split; [reflexivity |].
  fold (Carousel.total certificates). split.
  - replace (Carousel.activeIndex st + Carousel.total certificates)
      with (Carousel.activeIndex st + 1 * Carousel.total certificates) by lia.
    rewrite Z.mod_add, Z.mod_small by lia. apply set_activeIndex_same.
  - replace (Carousel.activeIndex st - Carousel.total certificates)
      with (Carousel.activeIndex st + (-1) * Carousel.total certificates)
      by lia.
    rewrite Z.mod_add, Z.mod_small by lia. apply set_activeIndex_same.
Qed.

Lemma carousel_repeated_steps_witness :
  Carousel.activeIndex
    (Carousel.run five_certificates (repeat Carousel.NextButton 7)
       (at_index 4)) = 1
  /\ Carousel.run five_certificates (repeat Carousel.PrevButton 5)
       (at_index 2) = at_index 2.
Proof.
  split.
  - apply (proj1 (carousel_repeated_steps five_certificates (at_index 4) 7
                    ltac:(cbv; discriminate)
                    ltac:(cbv; split; [discriminate | reflexivity]))).
  - apply (proj2 (proj2 (proj2
             (carousel_repeated_steps five_certificates (at_index 2) 0
                ltac:(cbv; discriminate)
                ltac:(cbv; split; [discriminate | reflexivity]))))).
Defined.

(** X2: which cards are displayed. With at most five certificates every
    card is; with five or more, the displayed cards are exactly the active
    one and the two nearest on each side of it along the circle, that is the
    cards of index [(activeIndex + d) mod N] for [d] from [-2] to [2]. *)
Theorem carousel_visible_window (certificates : list Carousel.Certificate)
    (st : Carousel.State) (i : Z) :
  0 <= Carousel.activeIndex st < Carousel.total certificates ->
  0 <= i < Carousel.total certificates ->
  (Carousel.total certificates <= 5 ->
   Carousel.isVisible (Carousel.getCardStyle certificates st i) = true)
  /\ (5 <= Carousel.total certificates ->
      (Carousel.isVisible (Carousel.getCardStyle certificates st i) = true
       <-> exists d, -2 <= d <= 2
             /\ i = (Carousel.activeIndex st + d)
                      mod Carousel.total certificates)).
Proof.
  intros Ha Hi. unfold Carousel.getCardStyle. cbn [Carousel.isVisible].
  rewrite Z.leb_le. split.
  - intros H5.
    pose proof (normalizedDiff_bound certificates
                  (Carousel.activeIndex st) i ltac:(lia) Ha Hi) as Hb.
    assert (Carousel.total certificates / 2 < 3)
      by (apply Z.div_lt_upper_bound; lia).
    lia.
  - intros H5. split.
    + intros Hv.
      destruct (normalizedDiff_congruent certificates
                  (Carousel.activeIndex st) i) as [k Hk].
      exists (Carousel.normalizedDiff certificates
                (Carousel.activeIndex st) i).
      split; [lia |]. rewrite Hk.
      replace (Carousel.activeIndex st
               + (i - Carousel.activeIndex st
                  + k * Carousel.total certificates))
        with (i + k * Carousel.total certificates) by lia.
      rewrite Z.mod_add, Z.mod_small by lia. reflexivity.
    + intros (d & Hd & ->).
      rewrite normalizedDiff_offset by lia. lia.
Qed.

Lemma carousel_visible_window_witness :
  Carousel.isVisible
    (Carousel.getCardStyle five_certificates (at_index 4) 1) = true.
Proof.
  apply (proj1 (carousel_visible_window five_certificates (at_index 4) 1
                  ltac:(cbv; split; [discriminate | reflexivity])
                  ltac:(cbv; split; [discriminate | reflexivity]))).
  cbv. discriminate.
Defined.

(** X3: the layout is symmetric around the active card. For a distance [d]
    with [0 < d] and [2 d < N], the card [d] places after the active one is
    shifted by [120 d] percent and turned by [-45] degrees, the card [d]
    places before it is shifted by [-120 d] percent and turned by [45]
    degrees, and the two have the same depth, stacking order, opacity, scale
    and visibility. *)
Theorem carousel_layout_mirror (certificates : list Carousel.Certificate)
    (st : Carousel.State) (d : Z) :
  0 <= Carousel.activeIndex st < Carousel.total certificates ->
  0 < d -> 2 * d < Carousel.total certificates ->
  let after :=
    Carousel.getCardStyle certificates st
      ((Carousel.activeIndex st + d) mod Carousel.total certificates) in
  let before :=
    Carousel.getCardStyle certificates st
      ((Carousel.activeIndex st - d) mod Carousel.total certificates) in
  Carousel.xOffset after = 120 * d
  /\ Carousel.xOffset before = - (120 * d)
  /\ Carousel.rotateY after = -45
  /\ Carousel.rotateY before = 45
  /\ Carousel.zOffset before = Carousel.zOffset after
  /\ Carousel.zIndex before = Carousel.zIndex after
  /\ Carousel.opacity before = Carousel.opacity after
  /\ Carousel.scale before = Carousel.scale after
  /\ Carousel.isVisible before = Carousel.isVisible after.
Proof.
  intros Ha Hd HdN after before. subst after before.
  unfold Carousel.getCardStyle. cbn.
  rewrite (normalizedDiff_offset certificates _ d) by lia.
  change (Carousel.activeIndex st - d)
    with (Carousel.activeIndex st + - d).
  rewrite (normalizedDiff_offset certificates _ (- d)) by lia.
  rewrite Z.abs_opp.
  destruct (Z.ltb_spec 0 d); [| lia].
  destruct (Z.ltb_spec 0 (- d)); [lia |].
  destruct (Z.ltb_spec (- d) 0); [| lia].
  destruct (Z.eqb_spec d 0); [lia |].
  destruct (Z.eqb_spec (- d) 0); [lia |].
  repeat split; lia.
Qed.

Lemma carousel_layout_mirror_witness :
  Carousel.xOffset (Carousel.getCardStyle five_certificates (at_index 4) 1)
  = 240
  /\ Carousel.xOffset (Carousel.getCardStyle five_certificates (at_index 4) 2)
     = -240.
Proof.
  destruct (carousel_layout_mirror five_certificates (at_index 4) 2)
    as (H1 & H2 & _).
  - cbv. split; [discriminate | reflexivity].
  - reflexivity.
  - reflexivity.
  - split; [exact H1 | exact H2].
Defined.

(** X4: the active card, and only it, is at the front: among the cards of
    the list, the stacking order [100] and the scale [1] are those of the
    card whose index is [activeIndex]; every other card is lower and
    scaled down, and is turned by 45 degrees one way or the other. *)
Theorem carousel_active_card_frontmost
    (certificates : list Carousel.Certificate) (st : Carousel.State)
    (i : Z) :
  0 <= Carousel.activeIndex st < Carousel.total certificates ->
  0 <= i < Carousel.total certificates ->
  (Carousel.zIndex (Carousel.getCardStyle certificates st i) = 100
   <-> i = Carousel.activeIndex st)
  /\ Carousel.zIndex (Carousel.getCardStyle certificates st i) <= 100
  /\ (Carousel.scale (Carousel.getCardStyle certificates st i) = 1%Q
      <-> i = Carousel.activeIndex st)
  /\ (Carousel.rotateY (Carousel.getCardStyle certificates st i) = 0
      <-> i = Carousel.activeIndex st).
Proof.
  intros Ha Hi.
  pose proof (normalizedDiff_zero certificates (Carousel.activeIndex st) i
                ltac:(lia) Ha Hi) as H0.
  unfold Carousel.getCardStyle. cbn.
  set (diff := Carousel.normalizedDiff certificates
                 (Carousel.activeIndex st) i) in *.
  split; [| split; [| split]].
  - rewrite <- H0. lia.
  - lia.
  - rewrite <- H0. destruct (Z.eqb_spec diff 0); split; try tauto.
    discriminate.
  - rewrite <- H0.
    destruct (Z.ltb_spec 0 diff); [lia |].
    destruct (Z.ltb_spec diff 0); lia.
Qed.

Lemma carousel_active_card_frontmost_witness :
  Carousel.zIndex (Carousel.getCardStyle five_certificates (at_index 3) 3)
  = 100.
Proof.
  apply (proj1 (carousel_active_card_frontmost five_certificates
                  (at_index 3) 3
                  ltac:(cbv; split; [discriminate | reflexivity])
                  ltac:(cbv; split; [discriminate | reflexivity]))).
  reflexivity.
Defined.

(** X5: [certificates[activeIndex]] is always a certificate of the list:
    for a non-empty list, after any sequence of events whose card clicks
    come from rendered cards, [activeCert] is defined and belongs to the
    list. For the empty list it is undefined in every state. *)
Theorem carousel_active_certificate
    (certificates : list Carousel.Certificate)
    (evs : list Carousel.Event) :
  (1 <= Carousel.total certificates ->
   Forall (Carousel.rendered certificates) evs ->
   exists c,
     Carousel.activeCert certificates
       (Carousel.run certificates evs Carousel.initial) = Some c
     /\ In c certificates)
  /\ (forall st, Carousel.activeCert [] st = None).
Proof.
  split.
  - intros HN Hevs.
    assert (Hr : Carousel.in_range certificates
                   (Carousel.run certificates evs Carousel.initial)).
    { apply run_in_range; [exact HN | exact Hevs |].
      unfold Carousel.in_range. cbn. lia. }
    unfold Carousel.in_range, Carousel.total in Hr.
    unfold Carousel.activeCert.
    destruct (Z.ltb_spec
                (Carousel.activeIndex
                   (Carousel.run certificates evs Carousel.initial)) 0);
      [lia |].
    destruct (nth_error certificates
                (Z.to_nat (Carousel.activeIndex
                   (Carousel.run certificates evs Carousel.initial))))
      as [c |] eqn:E.
    + exists c. split; [reflexivity |]. eapply nth_error_In, E.
    + apply nth_error_None in E. lia.
  - intros st. unfold Carousel.activeCert.
    destruct (_ <? _); [reflexivity |].
    now destruct (Z.to_nat (Carousel.activeIndex st)).
Qed.

Lemma carousel_active_certificate_witness :
  exists c,
    Carousel.activeCert five_certificates
      (Carousel.run five_certificates
         [Carousel.PrevButton; Carousel.CardClick 2; Carousel.NextButton]
         Carousel.initial) = Some c
    /\ In c five_certificates.
Proof.
  apply (proj1 (carousel_active_certificate five_certificates
                  [Carousel.PrevButton; Carousel.CardClick 2;
                   Carousel.NextButton])).
  - cbv. discriminate.
  - repeat constructor; cbv; discriminate.
Defined.

(** X6: the drag flag and the recorded start position go together. In every
    state reached from the initial one, whatever the events, [isDragging]
    holds exactly when [dragStartX] is not [null]; and once the pointer has
    left the carousel a mouse release changes nothing. *)
Theorem carousel_drag_bookkeeping
    (certificates : list Carousel.Certificate)
    (evs : list Carousel.Event) (clientX : Z) :
  let st := Carousel.run certificates evs Carousel.initial in
  (Carousel.isDragging st = true <-> Carousel.dragStartX st <> None)
  /\ Carousel.handle certificates (Carousel.MouseUp clientX)
       (Carousel.handle certificates Carousel.MouseLeave st)
     = Carousel.handle certificates Carousel.MouseLeave st.
Proof.
  cbv zeta. split; [| reflexivity].
  assert (H : forall st, drag_coherent st ->
                drag_coherent (Carousel.run certificates evs st)).
  { induction evs as [| ev l IH]; intros st Hst; [exact Hst |].
    cbn [Carousel.run fold_left]. apply IH.
    now apply handle_drag_coherent. }
  apply (H Carousel.initial). split; [discriminate | now intros []].
Qed.

(** X7: no gesture skips a card. On a non-empty list, from an index [i] in
    range, every event other than a click on a card leaves the index at
    [i], at [(i + 1) mod N] or at [(i - 1) mod N]. *)
Theorem carousel_single_step (certificates : list Carousel.Certificate)
    (ev : Carousel.Event) (st : Carousel.State) :
  1 <= Carousel.total certificates ->
  0 <= Carousel.activeIndex st < Carousel.total certificates ->
  (forall j, ev <> Carousel.CardClick j) ->
  Carousel.activeIndex (Carousel.handle certificates ev st)
    = Carousel.activeIndex st
  \/ Carousel.activeIndex (Carousel.handle certificates ev st)
     = (Carousel.activeIndex st + 1) mod Carousel.total certificates
  \/ Carousel.activeIndex (Carousel.handle certificates ev st)
     = (Carousel.activeIndex st - 1) mod Carousel.total certificates.
Proof.
  intros HN Hi Hev.
  assert (Hnext : Carousel.activeIndex (Carousel.nextSlide certificates st)
                  = (Carousel.activeIndex st + 1)
                      mod Carousel.total certificates).
  { rewrite next_index. apply js_rem_is_mod; lia. }
  assert (Hprev : Carousel.activeIndex (Carousel.prevSlide certificates st)
                  = (Carousel.activeIndex st - 1)
                      mod Carousel.total certificates).
  { rewrite prev_index, js_rem_is_mod by lia.
    replace (Carousel.activeIndex st - 1 + Carousel.total certificates)
      with (Carousel.activeIndex st - 1 + 1 * Carousel.total certificates)
      by lia.
    apply Z.mod_add. lia. }
  destruct ev; cbn [Carousel.handle]; auto.
  - unfold Carousel.onTouchEnd.
    destruct (Carousel.falsy (Carousel.touchStart st)
              || Carousel.falsy (Carousel.touchEnd st)); [auto |].
    destruct (Carousel.touchStart st), (Carousel.touchEnd st); auto.
    cbv zeta. destruct (_ <? _); [auto |]. destruct (_ <? _); auto.
  - unfold Carousel.onMouseUp.
    destruct (Carousel.isDragging st); [| auto].
    destruct (Carousel.dragStartX st); [| auto].
    cbv zeta. rewrite stop_drag_index.
    destruct (_ <? _); [auto |]. destruct (_ <? _); auto.
  - now destruct (Hev index).
Qed.

Lemma carousel_single_step_witness :
  Carousel.activeIndex
    (Carousel.handle five_certificates (Carousel.MouseUp 0)
       (Carousel.onMouseDown 100 (at_index 4)))
  = Carousel.activeIndex (Carousel.onMouseDown 100 (at_index 4))
  \/ Carousel.activeIndex
       (Carousel.handle five_certificates (Carousel.MouseUp 0)
          (Carousel.onMouseDown 100 (at_index 4)))
     = (4 + 1) mod 5
  \/ Carousel.activeIndex
       (Carousel.handle five_certificates (Carousel.MouseUp 0)
          (Carousel.onMouseDown 100 (at_index 4)))
     = (4 - 1) mod 5.
Proof.
  apply (carousel_single_step five_certificates (Carousel.MouseUp 0)
           (Carousel.onMouseDown 100 (at_index 4))).
  - cbv. discriminate.
  - cbv. split; [discriminate | reflexivity].
  - intros j. discriminate.
Defined.

(* ===================================================================== *)
(** ** Project filter: further properties *)
(* ===================================================================== *)

Section FilterMore.

Import Filter.

Local Open Scope string_scope.

(** **** Generic facts about [filter] *)

Lemma filter_sublist_impl {A} (f g : A -> bool) (l : list A) :
  (forall x, f x = true -> g x = true) ->
  sublist (List.filter f l) (List.filter g l).
Proof.
  intros Hfg. induction l as [| x l IH]; cbn; [constructor |].
  destruct (f x) eqn:Ef.
  - rewrite (Hfg x Ef). now apply sublist_skip.
  - destruct (g x); [now apply sublist_cons | exact IH].
Qed.

Lemma filter_filter_andb {A} (f g : A -> bool) (l : list A) :
  List.filter g (List.filter f l) = List.filter (fun x => f x && g x) l.
Proof.
  induction l as [| x l IH]; cbn; [reflexivity |].
  destruct (f x); cbn; [destruct (g x) |]; now rewrite IH.
Qed.

(** **** Substrings *)

Lemma append_assoc (a b c : string) : (a ++ b) ++ c = a ++ b ++ c.
Proof.
  induction a as [| x a IH]; [reflexivity |].
  rewrite !append_String. now rewrite IH.
Qed.

Lemma includes_trans s m q :
  includes s m = true -> includes m q = true -> includes s q = true.
Proof.
  rewrite !includes_spec.
  intros (p1 & s1 & ->) (p2 & s2 & ->).
  exists (p1 ++ p2), (s2 ++ s1). now rewrite !append_assoc.
Qed.

Lemma lower_char_idempotent c : lower_char (lower_char c) = lower_char c.
Proof.
  destruct c as [[] [] [] [] [] [] [] []]; vm_compute; reflexivity.
Qed.

Lemma toLowerCase_idempotent s : toLowerCase (toLowerCase s) = toLowerCase s.
Proof.
  induction s as [| c s IH]; cbn; [reflexivity |].
  now rewrite lower_char_idempotent, IH.
Qed.

(** **** The state of the filter, by its two cells *)

Lemma keeps_split q t p :
  keeps {| search := q; selectedTag := t |} p
  = keeps {| search := q; selectedTag := None |} p
    && keeps {| search := EmptyString; selectedTag := t |} p.
Proof.
  unfold keeps. cbn [search selectedTag truthy toLowerCase].
  rewrite !includes_empty. cbn [orb andb]. now rewrite andb_true_r.
Qed.

(** **** The set of tags and its sorted array *)

Lemma fold_set_add_In l : forall seen t,
  In t (fold_left set_add l seen) <-> In t seen \/ In t l.
Proof.
  induction l as [| x l IH]; intros seen t; cbn [fold_left].
  - cbn. tauto.
  - rewrite IH. unfold set_add.
    destruct (array_includes seen x) eqn:E.
    + apply array_includes_spec in E. cbn. split; [tauto |].
      intros [H | [<- | H]]; auto.
    + rewrite in_app_iff. cbn. tauto.
Qed.

Lemma fold_set_add_NoDup l : forall seen,
  NoDup seen -> NoDup (fold_left set_add l seen).
Proof.
  induction l as [| x l IH]; intros seen Hnd; cbn [fold_left];
    [exact Hnd |].
  apply IH. unfold set_add.
  destruct (array_includes seen x) eqn:E; [exact Hnd |].
  apply NoDup_app. split; [exact Hnd |]. split.
  - intros y Hy Hx. apply list_elem_of_singleton in Hx as ->.
    apply list_elem_of_In, array_includes_spec in Hy. congruence.
  - apply NoDup_singleton.
Qed.

Lemma collect_from_In projects : forall seen t,
  In t (fold_left (fun seen p => fold_left set_add (tags (data p)) seen)
          projects seen)
  <-> In t seen \/ exists p, In p projects /\ In t (tags (data p)).
Proof.
  induction projects as [| p l IH]; intros seen t; cbn [fold_left].
  - split; [auto | intros [H | (p & [] & _)]; exact H].
  - rewrite IH, fold_set_add_In. split.
    + intros [[H | H] | (p' & Hp' & Ht)]; eauto.
      * right. exists p. cbn. auto.
      * right. exists p'. cbn. auto.
    + intros [H | (p' & [<- | Hp'] & Ht)]; eauto.
Qed.

Lemma collect_from_NoDup projects : forall seen,
  NoDup seen ->
  NoDup (fold_left (fun seen p => fold_left set_add (tags (data p)) seen)
           projects seen).
Proof.
  induction projects as [| p l IH]; intros seen Hnd; cbn [fold_left];
    [exact Hnd |].
  apply IH, fold_set_add_NoDup, Hnd.
Qed.

Lemma sort_insert_perm t l : Permutation (t :: l) (sort_insert t l).
Proof.
  induction l as [| x l IH]; cbn; [reflexivity |].
  destruct (String.leb t x); [reflexivity |].
  rewrite perm_swap. now apply perm_skip.
Qed.

Lemma array_sort_perm l : Permutation l (array_sort l).
Proof.
  induction l as [| x l IH]; cbn; [reflexivity |].
  rewrite <- sort_insert_perm. now apply perm_skip.
Qed.

(** The order of the code units is transitive. *)
Lemma leb_trans a : forall b c,
  String.leb a b = true -> String.leb b c = true -> String.leb a c = true.
Proof.
  unfold String.leb.
  induction a as [| x a IH]; intros [| y b] [| z c]; cbn; try congruence.
  unfold Ascii.compare.
  destruct (N.compare_spec (N_of_ascii x) (N_of_ascii y)) as [Exy | Lxy | Gxy];
    destruct (N.compare_spec (N_of_ascii y) (N_of_ascii z)) as [Eyz | Lyz | Gyz];
    destruct (N.compare_spec (N_of_ascii x) (N_of_ascii z)) as [Exz | Lxz | Gxz];
    try congruence; try lia.
  apply IH.
Qed.

Lemma sort_insert_sorted t l :
  Sorted tag_le l -> Sorted tag_le (sort_insert t l).
Proof.
  induction 1 as [| x l Hl IH Hx]; cbn; [repeat constructor |].
  destruct (String.leb t x) eqn:E.
  - constructor; [now constructor | now constructor].
  - constructor; [exact IH |].
    assert (Hxt : tag_le x t).
    { destruct (String.leb_total t x) as [H | H]; [congruence | exact H]. }
    destruct l as [| y l]; cbn; [now constructor |].
    destruct (String.leb t y); constructor; [exact Hxt |].
    now inversion Hx.
Qed.

Lemma array_sort_sorted l : Sorted tag_le (array_sort l).
Proof.
  induction l as [| x l IH]; cbn; [constructor |].
  now apply sort_insert_sorted.
Qed.

Lemma allTagsArray_In projects t :
  In t (allTagsArray projects)
  <-> exists p, In p projects /\ In t (tags (data p)).
Proof.
  unfold allTagsArray.
  rewrite <- (Permutation_in' (eq_refl t) (array_sort_perm _)).
  unfold collect_tags. rewrite collect_from_In. cbn. tauto.
Qed.

End FilterMore.

Section CaseVariants.

Import Filter.

(** Two forms of one letter have the same lower-case form. *)
Lemma same_letter_lower a b : same_letter a b -> lower_char a = lower_char b.
Proof.
  intros [-> | [[Hu ->] | [Hu ->]]]; [reflexivity | |].
  - destruct a as [[] [] [] [] [] [] [] []]; try discriminate Hu;
      vm_compute; reflexivity.
  - destruct b as [[] [] [] [] [] [] [] []]; try discriminate Hu;
      vm_compute; reflexivity.
Qed.

Lemma CaseVariant_lower s t :
  CaseVariant s t -> toLowerCase s = toLowerCase t.
Proof.
  induction 1 as [| a b s t Hab _ IH]; [reflexivity |].
  cbn [toLowerCase]. now rewrite (same_letter_lower a b Hab), IH.
Qed.

End CaseVariants.

Section SortedTags.

Local Open Scope string_scope.

Lemma leb_ne_ltb a b :
  String.leb a b = true -> a <> b -> String.ltb a b = true.
Proof.
  unfold String.leb, String.ltb. intros Hle Hne.
  destruct (String.compare a b) eqn:E; try congruence.
  apply String.compare_eq_iff in E. contradiction.
Qed.

Lemma strictly_sorted (l : list string) :
  StronglySorted tag_le l -> NoDup l ->
  StronglySorted (fun a b => String.ltb a b = true) l.
Proof.
  induction 1 as [| x l Hl IH Hx]; intros Hnd; constructor.
  - apply IH. now apply NoDup_cons_1_2 in Hnd.
  - apply NoDup_cons_1_1 in Hnd.
    rewrite Forall_forall in *. intros y Hy.
    apply leb_ne_ltb; [now apply Hx |].
    intros ->. exact (Hnd Hy).
Qed.

End SortedTags.

(** X8: the array of tag buttons. [allTags] is in strictly increasing order
    of code units (so it has no duplicate), and its elements are exactly the
    tags carried by some project. *)
Theorem filter_tag_buttons (projects : list Filter.Project) :
  StronglySorted (fun a b => String.ltb a b = true)
    (Filter.allTagsArray projects)
  /\ NoDup (Filter.allTagsArray projects)
  /\ (forall t,
        In t (Filter.allTagsArray projects)
        <-> exists p, In p projects /\ In t (Filter.tags (Filter.data p)))
  /\ list_to_set (Filter.allTagsArray projects) = Filter.allTags projects.
Proof.
  assert (Hnd : NoDup (Filter.allTagsArray projects)).
  { unfold Filter.allTagsArray. rewrite <- array_sort_perm.
    apply collect_from_NoDup, NoDup_nil_2. }
  split; [| split; [exact Hnd | split; [apply allTagsArray_In |]]].
  - apply strictly_sorted; [| exact Hnd].
    apply Sorted_StronglySorted; [| apply array_sort_sorted].
    intros a b c. apply leb_trans.
  - apply set_eq. intros t. unfold Filter.allTags.
    rewrite !elem_of_list_to_set, !list_elem_of_In, allTagsArray_In.
    rewrite in_concat. split.
    + intros (p & Hp & Ht). exists (Filter.tags (Filter.data p)).
      split; [| exact Ht]. apply in_map_iff. eauto.
    + intros (l & Hl & Ht). apply in_map_iff in Hl as (p & <- & Hp). eauto.
Qed.

(** X9: refining the filter never adds a project, whatever
    [String.prototype.toLowerCase] does. When the lower-case form of the new
    search text contains the lower-case form of the old one, the new result
    is a sub-sequence of the old one; and the result with a tag selected is a
    sub-sequence of the result with no tag. *)
Theorem filter_refinement_narrows (lower : string -> string)
    (projects : list Filter.Project) (q q' : string) (t : option string) :
  Filter.includes (lower q') (lower q) = true ->
  sublist
    (Filter.filteredProjects_by lower projects
       {| Filter.search := q'; Filter.selectedTag := t |})
    (Filter.filteredProjects_by lower projects
       {| Filter.search := q; Filter.selectedTag := t |})
  /\ sublist
       (Filter.filteredProjects_by lower projects
          {| Filter.search := q; Filter.selectedTag := t |})
       (Filter.filteredProjects_by lower projects
          {| Filter.search := q; Filter.selectedTag := None |}).
Proof.
  intros Hq. split.
  - apply filter_sublist_impl. intros p. unfold Filter.keeps_by.
    cbn [Filter.search Filter.selectedTag].
    rewrite !andb_true_iff, !orb_true_iff.
    intros [[H | H] Ht]; (split; [| exact Ht]);
      [left | right]; exact (includes_trans _ _ _ H Hq).
  - apply filter_sublist_impl. intros p. unfold Filter.keeps_by.
    cbn [Filter.search Filter.selectedTag Filter.truthy].
    rewrite !andb_true_iff. intros [H _]. auto.
Qed.

Lemma filter_refinement_narrows_witness :
  sublist
    (Filter.filteredProjects foo_bar
       {| Filter.search := "BAR"; Filter.selectedTag := None |})
    (Filter.filteredProjects foo_bar
       {| Filter.search := "a"; Filter.selectedTag := None |}).
Proof.
  apply (filter_refinement_narrows Filter.toLowerCase foo_bar "a" "BAR" None).
  reflexivity.
Defined.

(** X10: the search text and the tag filter independently: filtering by
    both at once is filtering by the search text and then filtering the
    result by the tag, and also the other way round. *)
Theorem filter_search_then_tag (projects : list Filter.Project)
    (q : string) (t : option string) :
  Filter.filteredProjects projects
    {| Filter.search := q; Filter.selectedTag := t |}
  = Filter.filteredProjects
      (Filter.filteredProjects projects
         {| Filter.search := q; Filter.selectedTag := None |})
      {| Filter.search := EmptyString; Filter.selectedTag := t |}
  /\ Filter.filteredProjects projects
       {| Filter.search := q; Filter.selectedTag := t |}
     = Filter.filteredProjects
         (Filter.filteredProjects projects
            {| Filter.search := EmptyString; Filter.selectedTag := t |})
         {| Filter.search := q; Filter.selectedTag := None |}.
Proof.
  unfold Filter.filteredProjects. rewrite !filter_filter_andb. split.
  - apply filter_ext. intros p. apply keeps_split.
  - apply filter_ext. intros p. rewrite (keeps_split q t). apply andb_comm.
Qed.

(** X11: the search ignores the case of ASCII letters on both sides. Two
    projects with the same tags whose titles and descriptions differ only by
    the case of letters among [A]..[Z], [a]..[z] are kept or dropped
    together, for two search texts that differ only in that way; so two such
    search texts give the same result. *)
Theorem filter_ignores_ascii_case (q q' : string) (t : option string)
    (p p' : Filter.Project) (projects : list Filter.Project) :
  Filter.CaseVariant q q' ->
  Filter.CaseVariant (Filter.title (Filter.data p))
    (Filter.title (Filter.data p')) ->
  Filter.CaseVariant (Filter.description (Filter.data p))
    (Filter.description (Filter.data p')) ->
  Filter.tags (Filter.data p) = Filter.tags (Filter.data p') ->
  Filter.keeps {| Filter.search := q; Filter.selectedTag := t |} p
  = Filter.keeps {| Filter.search := q'; Filter.selectedTag := t |} p'
  /\ Filter.filteredProjects projects
       {| Filter.search := q; Filter.selectedTag := t |}
     = Filter.filteredProjects projects
         {| Filter.search := q'; Filter.selectedTag := t |}.
Proof.
  intros Hq Ht Hd Htags.
  apply CaseVariant_lower in Hq, Ht, Hd. split.
  - unfold Filter.keeps. cbn [Filter.search Filter.selectedTag].
    now rewrite Hq, Ht, Hd, Htags.
  - unfold Filter.filteredProjects. apply filter_ext. intros x.
    unfold Filter.keeps. cbn [Filter.search Filter.selectedTag].
    now rewrite Hq.
Qed.

Lemma filter_ignores_ascii_case_witness :
  Filter.keeps {| Filter.search := "FOO"; Filter.selectedTag := None |}
    (sample_project "foo" [])
  = Filter.keeps {| Filter.search := "foo"; Filter.selectedTag := None |}
      (sample_project "Foo" []).
Proof.
  apply (filter_ignores_ascii_case "FOO" "foo" None
           (sample_project "foo" []) (sample_project "Foo" []) []).
  - repeat constructor; right; left; split; reflexivity.
  - constructor; [right; right; split; reflexivity |].
    repeat constructor; left; reflexivity.
  - constructor.
  - reflexivity.
Defined.

(** X12: a tag button never leads to the empty-state message by itself.
    For a non-empty tag [t] of the array of buttons and an empty search
    text, the result is not empty and consists of exactly the projects that
    carry [t]. *)
Theorem filter_tag_button_finds (projects : list Filter.Project)
    (t : string) :
  In t (Filter.allTagsArray projects) ->
  t <> EmptyString ->
  Filter.filteredProjects projects
    {| Filter.search := EmptyString; Filter.selectedTag := Some t |} <> []
  /\ forall p,
       In p (Filter.filteredProjects projects
               {| Filter.search := EmptyString;
                  Filter.selectedTag := Some t |})
       <-> In p projects /\ In t (Filter.tags (Filter.data p)).
Proof.
  intros Hin Hne.
  assert (Hkeep : forall p,
            Filter.keeps {| Filter.search := EmptyString;
                            Filter.selectedTag := Some t |} p = true
            <-> In t (Filter.tags (Filter.data p))).
  { intros p. unfold Filter.keeps.
    cbn [Filter.search Filter.selectedTag Filter.toLowerCase].
    rewrite !includes_empty. cbn [orb andb].
    destruct t as [| c t]; [contradiction |]. cbn [Filter.truthy].
    apply array_includes_spec. }
  assert (Hmem : forall p,
            In p (Filter.filteredProjects projects
                    {| Filter.search := EmptyString;
                       Filter.selectedTag := Some t |})
            <-> In p projects /\ In t (Filter.tags (Filter.data p))).
  { intros p. unfold Filter.filteredProjects.
    rewrite filter_In, Hkeep. tauto. }
  split; [| exact Hmem].
  apply allTagsArray_In in Hin as (p & Hp & Ht).
  intros E. assert (Hp' := proj2 (Hmem p) (conj Hp Ht)).
  rewrite E in Hp'. destruct Hp'.
Qed.

Lemma filter_tag_button_finds_witness :
  Filter.filteredProjects foo_bar
    {| Filter.search := EmptyString; Filter.selectedTag := Some "go"%string |}
  <> [].
Proof.
  apply (filter_tag_button_finds foo_bar "go"%string).
  - vm_compute. left. reflexivity.
  - discriminate.
Defined.

(* ===================================================================== *)
(** ** OG image script: further properties *)
(* ===================================================================== *)

Section ScriptMore.

Variable env : OgScript.Env.

Local Abbreviation SRC := (OgScript.OG_SOURCE_DIR env).
Local Abbreviation OUT := (OgScript.OG_OUTPUT_DIR env).

(** The two ways a run over a non-empty listing can end. *)
Lemma run_script_outcome st :
  OgScript.mkdir_refused env OUT = None ->
  SRC ∈ OgScript.dirs st ->
  OgScript.readdir_ok env SRC = true ->
  inputs_of env <> [] ->
  (forallb (OgScript.sharp_ok env) (inputs_of env) = true
   /\ OgScript.run_script env st
      = (0, OgScript.emit
              (OgScript.ConsoleLog
                 (OgScript.Generated (List.length (inputs_of env))))
              (built_all env (inputs_of env) (listed env st))))
  \/ (exists pre x post,
        inputs_of env = (pre ++ x :: post)%list
        /\ forallb (OgScript.sharp_ok env) pre = true
        /\ OgScript.sharp_ok env x = false
        /\ OgScript.run_script env st
           = (1, OgScript.emit (OgScript.ConsoleError OgScript.Failed)
                   (OgScript.emit (OgScript.ToFile x (out_path env x))
                      (built_all env pre (listed env st))))).
Proof.
  intros Hmk Hsrc Hrd Hne.
  rewrite (run_script_encoding env st Hmk Hsrc Hrd Hne).
  destruct (build_all_cases env (inputs_of env) [] (listed env st))
    as [[Hall Hb] | (pre & x & post & Hsplit & Hpre & Hx & Hb)];
    rewrite Hb.
  - left. split; [exact Hall |]. cbn [app]. now rewrite length_map.
  - right. exists pre, x, post. auto.
Qed.

Lemma forallb_false_In {A} (f : A -> bool) l x :
  In x l -> f x = false -> forallb f l = false.
Proof.
  intros Hx Hf. destruct (forallb f l) eqn:E; [| reflexivity].
  rewrite forallb_forall in E. rewrite (E x Hx) in Hf. discriminate.
Qed.

(** The image at an output path after the loop does not depend on what was
    there before. *)
Lemma built_all_lookup_indep inputs st st' i :
  In i inputs ->
  OgScript.files (built_all env inputs st) !! out_path env i
  = OgScript.files (built_all env inputs st') !! out_path env i.
Proof.
  induction inputs as [| x l IH] using rev_ind; [intros [] |].
  intros Hi. rewrite !built_all_snoc. cbn [built OgScript.files OgScript.emit].
  destruct (decide (out_path env x = out_path env i)) as [E | E].
  - rewrite E, !lookup_insert_eq. reflexivity.
  - rewrite !lookup_insert_ne by exact E.
    apply in_app_iff in Hi as [Hi | [-> | []]]; [| now destruct E].
    now apply IH.
Qed.

(** Writing the same images a second time changes no file. *)
Lemma built_all_again inputs st st' :
  OgScript.files st' = OgScript.files (built_all env inputs st) ->
  OgScript.files (built_all env inputs st')
  = OgScript.files (built_all env inputs st).
Proof.
  intros Hst'. apply map_eq. intros p.
  destruct (decide (p ∈ map (out_path env) inputs)) as [Hp | Hp].
  - apply list_elem_of_In, in_map_iff in Hp as (i & <- & Hi).
    now apply built_all_lookup_indep.
  - rewrite built_all_frame, Hst'; [reflexivity |].
    intros i Hi ->. apply Hp, list_elem_of_In, in_map, Hi.
Qed.

(** The files after the loop depend on the files before it only. *)
Lemma built_all_files_ext inputs st st' :
  OgScript.files st' = OgScript.files st ->
  OgScript.files (built_all env inputs st')
  = OgScript.files (built_all env inputs st).
Proof.
  induction inputs as [| x l IH] using rev_ind; [auto |].
  intros H. rewrite !built_all_snoc. cbn [built OgScript.files OgScript.emit].
  now rewrite IH.
Qed.

(** The last input that maps to a path decides its content. *)
Lemma built_all_last_writer pre j post st :
  (forall i, In i post -> out_path env i <> out_path env j) ->
  OgScript.files (built_all env (pre ++ j :: post) st) !! out_path env j
  = Some (og_image j).
Proof.
  intros Hpost. unfold built_all. rewrite fold_left_app. cbn [fold_left].
  fold (built_all env post (built env (fold_left (built env) pre st) j)).
  rewrite built_all_frame.
  - cbn [built OgScript.files OgScript.emit]. apply lookup_insert_eq.
  - intros i Hi E. now apply (Hpost i Hi).
Qed.


Lemma inputs_of_regular i :
  In i (inputs_of env) ->
  exists e, In e (OgScript.entries env SRC)
            /\ OgScript.isFile e = true
            /\ i = OgScript.path_join SRC [OgScript.name e].
Proof.
  unfold inputs_of. intros (e & <- & He)%in_map_iff.
  apply filter_In in He as [He Hf]. eauto.
Qed.

End ScriptMore.

Section ScriptSummary.

Variable env : OgScript.Env.

Lemma accepted_prefix_all ok l :
  forallb ok l = true -> accepted_prefix ok l = l.
Proof.
  induction l as [| i l IH]; cbn; [reflexivity |].
  destruct (ok i); [| discriminate]. intros H. now rewrite IH.
Qed.

Lemma accepted_prefix_split ok pre x post :
  forallb ok pre = true -> ok x = false ->
  accepted_prefix ok (pre ++ x :: post) = pre.
Proof.
  induction pre as [| i pre IH]; cbn; intros Hpre Hx.
  - now rewrite Hx.
  - destruct (ok i); [| discriminate]. now rewrite IH.
Qed.


(** The status, the files and the directories of a run, in closed form. *)
Lemma run_script_closed st :
  fst (OgScript.run_script env st) = exit_status env st
  /\ OgScript.files (snd (OgScript.run_script env st))
     = OgScript.files (built_all env (written_inputs env st) st)
  /\ OgScript.dirs (snd (OgScript.run_script env st)) = dirs_after env st.
Proof.
  unfold exit_status, written_inputs, dirs_after.
  destruct (OgScript.mkdir_refused env (OgScript.OG_OUTPUT_DIR env))
    as [k |] eqn:Hmk.
  - rewrite (run_script_refused env k st Hmk). auto.
  - destruct (decide (OgScript.OG_SOURCE_DIR env ∈ OgScript.dirs st))
      as [Hsrc | Hmiss].
    + destruct (OgScript.readdir_ok env (OgScript.OG_SOURCE_DIR env))
        eqn:Hrd.
      * destruct (inputs_of env) as [| i0 l0] eqn:E.
        -- rewrite (run_script_found env st Hmk Hsrc Hrd), E. auto.
        -- assert (Hne : inputs_of env <> []) by (rewrite E; discriminate).
           rewrite <- E. clear E.
           destruct (run_script_outcome env st Hmk Hsrc Hrd Hne)
             as [[Hall Hrun]
                | (pre & x & post & Hsplit & Hpre & Hx & Hrun)];
             rewrite Hrun;
             cbn [fst snd OgScript.files OgScript.dirs OgScript.emit];
             rewrite built_all_dirs.
           ++ rewrite Hall, accepted_prefix_all by exact Hall.
              split; [reflexivity |]. split; [| reflexivity].
              now apply built_all_files_ext.
           ++ rewrite Hsplit, (accepted_prefix_split _ _ _ _ Hpre Hx).
              rewrite forallb_app. cbn [forallb].
              rewrite Hx, andb_false_r.
              split; [reflexivity |]. split; [| reflexivity].
              now apply built_all_files_ext.
      * rewrite (run_script_unlisted env st Hmk Hsrc Hrd). auto.
    + rewrite (run_script_missing env st Hmk Hmiss). auto.
Qed.

(** The run adds directories of the chain to the output directory only,
    so it never makes, nor hides, the source directory. *)
Lemma source_dir_untouched st :
  OgScript.OG_SOURCE_DIR env ∈ dirs_after env st
  <-> OgScript.OG_SOURCE_DIR env ∈ OgScript.dirs st.
Proof.
  unfold dirs_after. rewrite elem_of_union, elem_of_list_to_set.
  pose proof (source_not_above_output env) as Hno.
  split; [| auto]. intros [H | H]; [exact H |]. exfalso. apply Hno.
  destruct (OgScript.mkdir_refused env (OgScript.OG_OUTPUT_DIR env));
    [| exact H].
  exact (subseteq_take _ _ _ H).
Qed.

End ScriptSummary.

(** X13: the exit status. The run ends with status 1 exactly when [mkdir]
    of the output directory is refused, or the source directory exists and
    either [readdir] rejects it or the encoder rejects one of its regular
    files; in every other case it ends with status 0. *)
Theorem og_exit_status (env : OgScript.Env) (st : OgScript.FS) :
  (fst (OgScript.run_script env st) = 1
   <-> OgScript.mkdir_refused env (OgScript.OG_OUTPUT_DIR env) <> None
       \/ (OgScript.OG_SOURCE_DIR env ∈ OgScript.dirs st
           /\ (OgScript.readdir_ok env (OgScript.OG_SOURCE_DIR env) = false
               \/ exists e,
                    In e (OgScript.entries env (OgScript.OG_SOURCE_DIR env))
                    /\ OgScript.isFile e = true
                    /\ OgScript.sharp_ok env
                         (OgScript.path_join (OgScript.OG_SOURCE_DIR env)
                            [OgScript.name e]) = false)))
  /\ (fst (OgScript.run_script env st) = 0
      \/ fst (OgScript.run_script env st) = 1).
Proof.
  rewrite (proj1 (run_script_closed env st)). unfold exit_status.
  destruct (OgScript.mkdir_refused env (OgScript.OG_OUTPUT_DIR env))
    as [k |] eqn:Hmk.
  - split; [| auto]. split; [intros _; left; discriminate | reflexivity].
  - destruct (decide (OgScript.OG_SOURCE_DIR env ∈ OgScript.dirs st))
      as [Hsrc | Hmiss].
    + destruct (OgScript.readdir_ok env (OgScript.OG_SOURCE_DIR env))
        eqn:Hrd.
      * destruct (forallb (OgScript.sharp_ok env) (inputs_of env)) eqn:Hall;
          (split; [| auto]).
        -- split; [discriminate |].
           intros [H | (_ & [H | (e & He & Hf & Hrej)])];
             [now destruct H | discriminate |].
           rewrite (forallb_false_In _ _ _
                      (inputs_of_entries env e He Hf) Hrej) in Hall.
           discriminate.
        -- split; [| reflexivity]. intros _. right. split; [exact Hsrc |].
           right.
           assert (Hex : exists i, In i (inputs_of env)
                                   /\ OgScript.sharp_ok env i = false).
           { clear - Hall. induction (inputs_of env) as [| i l IH];
               [discriminate |]. cbn in Hall.
             destruct (OgScript.sharp_ok env i) eqn:E.
             - destruct (IH Hall) as (j & Hj & Hrej). exists j. cbn. auto.
             - exists i. cbn. auto. }
           destruct Hex as (i & Hi & Hrej).
           apply inputs_of_regular in Hi as (e & He & Hf & ->). eauto.
      * split; [| auto]. split; [| reflexivity]. intros _. right. auto.
    + split; [| auto]. split; [discriminate |].
      intros [H | (H & _)]; [now destruct H | contradiction].
Qed.




(** X15: running the script again changes nothing but the log: a second
    run, started where the first one ended, exits with the same status and
    leaves the same files and the same directories. *)
Theorem og_rerun_changes_nothing (env : OgScript.Env) (st : OgScript.FS) :
  let first := OgScript.run_script env st in
  let second := OgScript.run_script env (snd first) in
  fst second = fst first
  /\ OgScript.files (snd second) = OgScript.files (snd first)
  /\ OgScript.dirs (snd second) = OgScript.dirs (snd first).
Proof.
  cbv zeta.
  destruct (run_script_closed env st) as (Hcode & Hfiles & Hdirs).
  destruct (run_script_closed env (snd (OgScript.run_script env st)))
    as (Hcode2 & Hfiles2 & Hdirs2).
  assert (Hsame : OgScript.OG_SOURCE_DIR env
                    ∈ OgScript.dirs (snd (OgScript.run_script env st))
                  <-> OgScript.OG_SOURCE_DIR env ∈ OgScript.dirs st).
  { rewrite Hdirs. apply source_dir_untouched. }
  assert (Hin : written_inputs env (snd (OgScript.run_script env st))
                = written_inputs env st).
  { unfold written_inputs.
    destruct (OgScript.mkdir_refused env _); [reflexivity |].
    destruct (decide _) as [H1 | H1], (decide _) as [H2 | H2];
      try reflexivity; tauto. }
  split; [| split].
  - rewrite Hcode2, Hcode. unfold exit_status.
    destruct (OgScript.mkdir_refused env _); [reflexivity |].
    destruct (decide _) as [H1 | H1], (decide _) as [H2 | H2];
      try reflexivity; tauto.
  - rewrite Hfiles2, Hin, Hfiles. apply built_all_again. exact Hfiles.
  - rewrite Hdirs2. unfold dirs_after at 1. rewrite Hdirs.
    unfold dirs_after. now rewrite <- (assoc_L (∪)), (idemp_L (∪)).
Qed.

(** X16: when several source files map to the same output name, the last
    one listed decides the content. On a successful run over an existing
    source directory, a regular file [j] that no later file of the listing
    shares its output path with has its own image at that path. *)
Theorem og_last_source_wins (env : OgScript.Env) (st : OgScript.FS)
    (pre post : list OgScript.path) (j : OgScript.path) :
  OgScript.OG_SOURCE_DIR env ∈ OgScript.dirs st ->
  fst (OgScript.run_script env st) = 0 ->
  inputs_of env = (pre ++ j :: post)%list ->
  (forall i, In i post -> out_path env i <> out_path env j) ->
  OgScript.files (snd (OgScript.run_script env st)) !! out_path env j
  = Some (og_image j).
Proof.
  intros Hsrc Hexit Hsplit Hpost.
  destruct (run_script_closed env st) as (Hcode & Hfiles & _).
  rewrite Hcode in Hexit. unfold exit_status in Hexit.
  rewrite Hfiles. unfold written_inputs.
  destruct (OgScript.mkdir_refused env _); [discriminate |].
  destruct (decide _); [| contradiction].
  destruct (OgScript.readdir_ok env _); [| discriminate].
  destruct (forallb (OgScript.sharp_ok env) (inputs_of env)) eqn:Hall;
    [| discriminate].
  rewrite (accepted_prefix_all _ _ Hall), Hsplit.
  now apply built_all_last_writer.
Qed.

Lemma og_last_source_wins_witness :
  OgScript.files (snd (OgScript.run_script same_stem with_source))
    !! ["site"; "public"; "images"; "og"; "a.webp"]%string
  = Some (og_image ["site"; "src"; "og"; "a.png"]%string).
Proof.
  apply (og_last_source_wins same_stem with_source
           [["site"; "src"; "og"; "a.jpg"]%string]
           [["site"; "src"; "og"; "b.png"]%string]
           ["site"; "src"; "og"; "a.png"]%string).
  - vm_compute. reflexivity.
  - reflexivity.
  - reflexivity.
  - intros i [<- | []]. discriminate.
Defined.

(** X17: a successful run over a non-empty listing. When the output
    directory can be made, the source directory exists, can be listed and
    holds at least one regular file, and the encoder accepts them all, the
    run exits with status 0; after making the output directory, checking
    and listing the source directory, it hands each regular file to the
    encoder exactly once, in the order of the listing, and then logs their
    number. If moreover the output paths are pairwise distinct and none of
    them is taken, the run adds exactly that number of files. *)
Theorem og_successful_run (env : OgScript.Env) (st : OgScript.FS) :
  OgScript.mkdir_refused env (OgScript.OG_OUTPUT_DIR env) = None ->
  OgScript.OG_SOURCE_DIR env ∈ OgScript.dirs st ->
  OgScript.readdir_ok env (OgScript.OG_SOURCE_DIR env) = true ->
  inputs_of env <> [] ->
  forallb (OgScript.sharp_ok env) (inputs_of env) = true ->
  fst (OgScript.run_script env st) = 0
  /\ OgScript.trace (snd (OgScript.run_script env st))
     = (OgScript.trace st
        ++ [OgScript.Mkdir (OgScript.OG_OUTPUT_DIR env);
            OgScript.Access (OgScript.OG_SOURCE_DIR env);
            OgScript.Readdir (OgScript.OG_SOURCE_DIR env)]
        ++ map (fun i => OgScript.ToFile i (out_path env i)) (inputs_of env)
        ++ [OgScript.ConsoleLog
              (OgScript.Generated (List.length (inputs_of env)))])%list
  /\ (NoDup (map (out_path env) (inputs_of env)) ->
      (forall i, In i (inputs_of env) ->
         OgScript.files st !! out_path env i = None) ->
      size (OgScript.files (snd (OgScript.run_script env st)))
      = (size (OgScript.files st) + List.length (inputs_of env))%nat).
Proof.
  intros Hmk Hsrc Hrd Hne Hall.
  destruct (run_script_outcome env st Hmk Hsrc Hrd Hne)
    as [[_ Hrun] | (pre & x & post & Hsplit & _ & Hx & _)].
  - rewrite Hrun. cbn [fst snd OgScript.trace OgScript.files OgScript.emit].
    split; [reflexivity |]. split.
    + rewrite built_all_trace. cbn. now rewrite <- !app_assoc.
    + intros Hnd Hfree.
      exact (built_all_size env (inputs_of env) (listed env st) Hnd Hfree).
  - rewrite Hsplit, forallb_app in Hall. cbn in Hall.
    rewrite Hx, andb_false_r in Hall. discriminate.
Qed.

Lemma og_successful_run_witness :
  fst (OgScript.run_script site with_source) = 0
  /\ size (OgScript.files (snd (OgScript.run_script site with_source)))
     = 1%nat.
Proof.
  destruct (og_successful_run site with_source) as (Hcode & _ & Hsize).
  - reflexivity.
  - vm_compute. reflexivity.
  - reflexivity.
  - discriminate.
  - reflexivity.
  - split; [exact Hcode |]. apply Hsize.
    + vm_compute. repeat constructor. intros H.
      apply elem_of_nil in H. exact H.
    + intros i Hi. reflexivity.
Defined.


